(** * Stake Studio: the cap-table engine of the equity scenario builder

    A shallow embedding of the calculation code of the React components
    [OwnershipTable], [ExitScenario], [PricingRound], [SafeRound],
    [CompanySetup] and of the state handlers of the [Index] page, together
    with the properties the written specification states about them.

    Numbers.  A JavaScript [number] is modelled by [num]: an exact rational,
    or one of [Infinity], [-Infinity], [NaN].  Arithmetic on finite values is
    exact: rounding, overflow and the sign of zero are not modelled.  Division
    of a finite value by zero gives an infinity or [NaN] as in JavaScript
    (with the zero taken as [+0]).  Equality of two finite numbers is the
    equality of rationals [==].

    Strings are byte strings, and the white space the parsers skip is the
    ASCII white space.  [parseInt] and [parseFloat] return the exact value of
    the numeral they read, which is the [number] of JavaScript when that
    value is one a [number] holds exactly (every integer up to [2^53] in
    absolute value).  The rendering (number formatting, charts, badges) is
    left out. *)

From Stdlib Require Import QArith Qabs Lqa Lia ZArith Bool List String Ascii Permutation.
From Stdlib Require Import Decimal DecimalString DecimalPos DecimalZ Sorted.
Import ListNotations.

Set Implicit Arguments.

(** ** JavaScript numbers *)

Module JS.

Inductive num : Type :=
| Fin (q : Q)
| PInf
| NInf
| NaN.

Definition zero : num := Fin 0.
Definition one : num := Fin 1.
Definition hundred : num := Fin 100.
Definition Infinity : num := PInf.

Definition isZero (q : Q) : bool := Qeq_bool q 0.
Definition isNeg (q : Q) : bool := negb (Qle_bool 0 q).

Definition jneg (a : num) : num :=
  match a with
  | Fin x => Fin (- x)
  | PInf => NInf
  | NInf => PInf
  | NaN => NaN
  end.

(** [a + b] *)
Definition jadd (a b : num) : num :=
  match a, b with
  | NaN, _ | _, NaN => NaN
  | Fin x, Fin y => Fin (x + y)
  | PInf, NInf | NInf, PInf => NaN
  | PInf, _ | _, PInf => PInf
  | NInf, _ | _, NInf => NInf
  end.

(** [a - b] *)
Definition jsub (a b : num) : num := jadd a (jneg b).

(** The infinity of the sign of [q], [NaN] when [q] is zero. *)
Definition infOfSign (positive : bool) (q : Q) : num :=
  if isZero q then NaN
  else if xorb positive (isNeg q) then PInf else NInf.

(** [a * b] *)
Definition jmul (a b : num) : num :=
  match a, b with
  | NaN, _ | _, NaN => NaN
  | Fin x, Fin y => Fin (x * y)
  | PInf, Fin y | Fin y, PInf => infOfSign true y
  | NInf, Fin y | Fin y, NInf => infOfSign false y
  | PInf, PInf | NInf, NInf => PInf
  | PInf, NInf | NInf, PInf => NInf
  end.

(** [a / b] *)
Definition jdiv (a b : num) : num :=
  match a, b with
  | NaN, _ | _, NaN => NaN
  | Fin x, Fin y => if isZero y then infOfSign true x else Fin (x / y)
  | Fin _, (PInf | NInf) => Fin 0
  | PInf, Fin y => if isNeg y then NInf else PInf
  | NInf, Fin y => if isNeg y then PInf else NInf
  | (PInf | NInf), (PInf | NInf) => NaN
  end.

(** [Math.min(a, b)] *)
Definition Math_min (a b : num) : num :=
  match a, b with
  | NaN, _ | _, NaN => NaN
  | NInf, _ | _, NInf => NInf
  | PInf, y => y
  | x, PInf => x
  | Fin x, Fin y => if Qle_bool x y then Fin x else Fin y
  end.

(** [a > b] *)
Definition jgt (a b : num) : bool :=
  match a, b with
  | NaN, _ | _, NaN => false
  | Fin x, Fin y => negb (Qle_bool x y)
  | PInf, PInf => false
  | PInf, _ => true
  | _, PInf => false
  | NInf, _ => false
  | Fin _, NInf => true
  end.

(** Truthiness of a number: [0] and [NaN] are falsy. *)
Definition truthy (a : num) : bool :=
  match a with
  | Fin x => negb (isZero x)
  | PInf | NInf => true
  | NaN => false
  end.

(** [v || d] for an optional number [v] ([None] is [undefined]). *)
Definition orElse (v : option num) (d : num) : num :=
  match v with
  | Some a => if truthy a then a else d
  | None => d
  end.

(** Equality of numbers up to the representation of a rational; [NaN] is
    equal to nothing. *)
Definition jeq (a b : num) : Prop :=
  match a, b with
  | Fin x, Fin y => x == y
  | PInf, PInf => True
  | NInf, NInf => True
  | _, _ => False
  end.

(** [|a - b| <= tol * |b|]: [a] is [b] within the relative tolerance [tol]. *)
Definition within (tol : Q) (a b : num) : Prop :=
  match a, b with
  | Fin x, Fin y => Qabs (x - y) <= tol * Qabs y
  | _, _ => False
  end.

Definition isFinite (a : num) : bool :=
  match a with Fin _ => true | _ => false end.

End JS.

Import JS.

Declare Scope js_scope.
Delimit Scope js_scope with js.
Bind Scope js_scope with num.
Infix "+" := jadd : js_scope.
Infix "-" := jsub : js_scope.
Infix "*" := jmul : js_scope.
Infix "/" := jdiv : js_scope.
Infix ">" := jgt : js_scope.
Infix "||" := orElse : js_scope.
Infix "=~=" := jeq (at level 70, no associativity).

(** ** [parseInt] and [parseFloat]

    Strings are sequences of bytes; the white space skipped at the start is
    the ASCII white space (tab, line feed, vertical tab, form feed, carriage
    return, space).  The value of the digits read is exact. *)

Module Parse.

Local Open Scope char_scope.
Local Open Scope list_scope.

Definition isWhiteSpace (c : ascii) : bool :=
  let n := nat_of_ascii c in
  ((9 <=? n) && (n <=? 13) || (n =? 32))%nat.

Fixpoint trimStart (l : list ascii) : list ascii :=
  match l with
  | c :: r => if isWhiteSpace c then trimStart r else l
  | [] => []
  end.

(** The value of a digit in radix 10 or 16. *)
Definition digitValue (radix : Z) (c : ascii) : option Z :=
  let n := Z.of_nat (nat_of_ascii c) in
  let v :=
    if ((48 <=? n) && (n <=? 57))%Z then Some (n - 48)%Z
    else if ((97 <=? n) && (n <=? 102))%Z then Some (n - 87)%Z
    else if ((65 <=? n) && (n <=? 70))%Z then Some (n - 55)%Z
    else None in
  match v with
  | Some d => if (d <? radix)%Z then Some d else None
  | None => None
  end.

(** The longest run of digits at the start of [l]: their values, most
    significant first, and what follows. *)
Fixpoint takeDigits (radix : Z) (l : list ascii) : list Z * list ascii :=
  match l with
  | c :: r =>
      match digitValue radix c with
      | Some d => let '(ds, rest) := takeDigits radix r in (d :: ds, rest)
      | None => ([], l)
      end
  | [] => ([], [])
  end.

Definition valueOf (radix : Z) (ds : list Z) : Z :=
  fold_left (fun acc d => (acc * radix + d)%Z) ds 0%Z.

(** An optional sign: [true] for a minus. *)
Definition takeSign (l : list ascii) : bool * list ascii :=
  match l with
  | "-" :: r => (true, r)
  | "+" :: r => (false, r)
  | _ => (false, l)
  end.

Definition signed (minus : bool) (q : Q) : num :=
  if minus then Fin (- q) else Fin q.

(** A [0x] or [0X] prefix selects radix 16. *)
Definition takeRadix (l : list ascii) : Z * list ascii :=
  match l with
  | "0" :: ("x" | "X") :: r => (16%Z, r)
  | _ => (10%Z, l)
  end.

(** [parseInt(s)], no radix given. *)
Definition parseInt (s : string) : num :=
  let '(minus, l) := takeSign (trimStart (list_ascii_of_string s)) in
  let '(radix, l) := takeRadix l in
  match takeDigits radix l with
  | ([], _) => NaN
  | (ds, _) => signed minus (inject_Z (valueOf radix ds))
  end.

Fixpoint startsWith (prefix l : list ascii) : bool :=
  match prefix, l with
  | [], _ => true
  | p :: ps, c :: r => Ascii.eqb p c && startsWith ps r
  | _ :: _, [] => false
  end.

(** [m * 10^e] *)
Definition scale (m e : Z) : Q :=
  if (0 <=? e)%Z then inject_Z (m * 10 ^ e)
  else Qmake m (Z.to_pos (10 ^ (- e))).

(** The exponent part at the start of [l], 0 when there is none. *)
Definition takeExponent (l : list ascii) : Z :=
  match l with
  | ("e" | "E") :: r =>
      let '(minus, r) := takeSign r in
      match takeDigits 10 r with
      | ([], _) => 0%Z
      | (ds, _) => if minus then (- valueOf 10 ds)%Z else valueOf 10 ds
      end
  | _ => 0%Z
  end.

(** [parseFloat(s)]: the longest prefix that is a decimal literal. *)
Definition parseFloat (s : string) : num :=
  let '(minus, l) := takeSign (trimStart (list_ascii_of_string s)) in
  if startsWith (list_ascii_of_string "Infinity") l
  then (if minus then NInf else PInf)
  else
    let '(ip, r1) := takeDigits 10 l in
    let '(fp, r2) :=
      match r1 with
      | "." :: r => takeDigits 10 r
      | _ => ([], r1)
      end in
    match ip, fp with
    | [], [] => NaN
    | _, _ =>
        signed minus
          (scale (valueOf 10 (ip ++ fp)) (takeExponent r2 - Z.of_nat (List.length fp)))
    end.

(** A string is falsy when it is empty. *)
Definition nonEmpty (s : string) : bool :=
  match s with EmptyString => false | _ => true end.

End Parse.

Import Parse.

Local Open Scope string_scope.
Local Open Scope list_scope.

(** ** The data model and the page state ([pages/Index.tsx]) *)

Module Index.

Record Company : Type := mkCompany {
  name : string;
  foundersShares : num;
  totalShares : num;
  initialValuation : num
}.

Record SafeInvestment : Type := mkSafe {
  safe_id : string;
  investorName : string;
  amount : num;
  discount : num;
  valuationCap : option num;       (* [valuationCap?: number] *)
  converted : bool
}.

Record NewInvestor : Type := mkInvestor {
  investor_name : string;
  investor_investment : num
}.

Record PricingRoundData : Type := mkRound {
  round_id : string;
  round_name : string;
  preMoneyValuation : num;
  investment : num;
  newInvestors : list NewInvestor
}.

(** What [handleSafeRound] and [handlePricingRound] receive: the record
    without [id] (and without [converted]). *)
Record SafeData : Type := mkSafeData {
  sd_investorName : string;
  sd_amount : num;
  sd_discount : num;
  sd_valuationCap : option num
}.

Record RoundData : Type := mkRoundData {
  rd_name : string;
  rd_preMoneyValuation : num;
  rd_investment : num;
  rd_newInvestors : list NewInvestor
}.

(** The [useState] cells of the page. *)
Record State : Type := mkState {
  company : option Company;
  safeRounds : list SafeInvestment;
  pricingRounds : list PricingRoundData;
  activeTab : string
}.

Definition initialState : State :=
  {| company := None; safeRounds := []; pricingRounds := []; activeTab := "setup" |}.

Definition handleCompanySetup (companyData : Company) (st : State) : State :=
  {| company := Some companyData;
     safeRounds := safeRounds st;
     pricingRounds := pricingRounds st;
     activeTab := "safe" |}.

(** [id] stands for the [Math.random().toString(36).substr(2, 9)] the handler
    draws. *)
Definition handleSafeRound (id : string) (safeData : SafeData) (st : State) : State :=
  let newSafe :=
    {| safe_id := id;
       investorName := sd_investorName safeData;
       amount := sd_amount safeData;
       discount := sd_discount safeData;
       valuationCap := sd_valuationCap safeData;
       converted := false |} in
  {| company := company st;
     safeRounds := safeRounds st ++ [newSafe];
     pricingRounds := pricingRounds st;
     activeTab := activeTab st |}.

Definition markConverted (s : SafeInvestment) : SafeInvestment :=
  {| safe_id := safe_id s;
     investorName := investorName s;
     amount := amount s;
     discount := discount s;
     valuationCap := valuationCap s;
     converted := true |}.

Definition handlePricingRound (id : string) (roundData : RoundData) (st : State) : State :=
  let newRound :=
    {| round_id := id;
       round_name := rd_name roundData;
       preMoneyValuation := rd_preMoneyValuation roundData;
       investment := rd_investment roundData;
       newInvestors := rd_newInvestors roundData |} in
  {| company := company st;
     safeRounds := map markConverted (safeRounds st);
     pricingRounds := pricingRounds st ++ [newRound];
     activeTab := activeTab st |}.

(** What happens on the page: a call of one of the three handlers. *)
Inductive Event : Type :=
| SetUp (companyData : Company)
| AddSafe (id : string) (safeData : SafeData)
| AddRound (id : string) (roundData : RoundData).

Definition handle (st : State) (e : Event) : State :=
  match e with
  | SetUp companyData => handleCompanySetup companyData st
  | AddSafe id safeData => handleSafeRound id safeData st
  | AddRound id roundData => handlePricingRound id roundData st
  end.

(** The page state after a sequence of handler calls, oldest first. *)
Definition run (events : list Event) : State := fold_left handle events initialState.

End Index.

Import Index.

Inductive StakeholderType : Type := founder | safe | investor.

Definition StakeholderType_eqb (a b : StakeholderType) : bool :=
  match a, b with
  | founder, founder | safe, safe | investor, investor => true
  | _, _ => false
  end.

(** [xs.reduce((sum, x) => sum + f(x), 0)] *)
Definition sumOf {A : Type} (f : A -> num) (xs : list A) : num :=
  fold_left (fun sum x => (sum + f x)%js) xs zero.

(** ** The conversion of one SAFE note and the pricing of a round

    Every view repeats the same lines for one SAFE note and for the round's
    price; they are written once here.  [shares] is the share count the
    view's loop holds when the round is processed. *)

Section Formulas.

Variable safes : list SafeInvestment.
Variable round : PricingRoundData.
Variable shares : num.

Definition discountPrice (s : SafeInvestment) : num :=
  (preMoneyValuation round * (one - discount s / hundred))%js.

Definition capPrice (s : SafeInvestment) : num :=
  (valuationCap s || Infinity)%js.

Definition conversionPrice (s : SafeInvestment) : num :=
  Math_min (discountPrice s) (capPrice s).

Definition sharePrice (s : SafeInvestment) : num :=
  (conversionPrice s / shares)%js.

Definition convertedShares (s : SafeInvestment) : num :=
  (amount s / sharePrice s)%js.

(** [safeRounds.reduce((sum, safe) => sum + safe.amount, 0)] *)
Definition roundSafeInvestment : num := sumOf amount safes.

Definition effectivePreMoney : num :=
  (preMoneyValuation round - roundSafeInvestment)%js.

Definition pricePerShare : num := (effectivePreMoney / shares)%js.

Definition newShares : num := (investment round / pricePerShare)%js.

End Formulas.

(** ** The ownership view ([components/OwnershipTable.tsx]) *)

Module OwnershipTable.

Record OwnershipBreakdown : Type := mkBreakdown {
  stakeholder : string;
  shares : num;
  ownership : num;
  investment : num;
  type : StakeholderType
}.

(** The [let] variables of [ownershipData] and its [stakeholders] array. *)
Record Loop : Type := mkLoop {
  cur_totalShares : num;
  cur_currentValuation : num;
  cur_stakeholders : list OwnershipBreakdown
}.

Definition init (company : Company) : Loop :=
  {| cur_totalShares := totalShares company;
     cur_currentValuation := initialValuation company;
     cur_stakeholders :=
       [ {| stakeholder := "Founders";
            shares := foundersShares company;
            ownership := zero;
            investment := zero;
            type := founder |} ] |}.

(** The body of [safeRounds.forEach] inside a round; the accumulator is
    [safeShares] with the [stakeholders] array. *)
Definition convertSafe (round : PricingRoundData) (totalShares : num)
    (acc : num * list OwnershipBreakdown) (s : SafeInvestment)
    : num * list OwnershipBreakdown :=
  let '(safeShares, stakeholders) := acc in
  if negb (converted s) then acc
  else
    let convertedShares := convertedShares round totalShares s in
    let safeShares := (safeShares + convertedShares)%js in
    let existingSafe :=
      find (fun x => (stakeholder x =? investorName s)%string) stakeholders in
    match existingSafe with
    | None =>
        (safeShares,
         stakeholders ++
           [ {| stakeholder := investorName s;
                shares := convertedShares;
                ownership := zero;
                investment := amount s;
                type := safe |} ])
    | Some _ => (safeShares, stakeholders)
    end.

Definition investorEntry (pricePerShare : num) (inv : NewInvestor) : OwnershipBreakdown :=
  {| stakeholder := investor_name inv;
     shares := (investor_investment inv / pricePerShare)%js;
     ownership := zero;
     investment := investor_investment inv;
     type := investor |}.

(** The body of [pricingRounds.forEach]. *)
Definition processRound (safeRounds : list SafeInvestment) (st : Loop)
    (round : PricingRoundData) : Loop :=
  let totalShares := cur_totalShares st in
  let '(safeShares, stakeholders) :=
    fold_left (convertSafe round totalShares) safeRounds (zero, cur_stakeholders st) in
  let pricePerShare := pricePerShare safeRounds round totalShares in
  let newShares := (Index.investment round / pricePerShare)%js in
  {| cur_totalShares := (totalShares + (safeShares + newShares))%js;
     cur_currentValuation := (preMoneyValuation round + Index.investment round)%js;
     cur_stakeholders := stakeholders ++ map (investorEntry pricePerShare) (newInvestors round) |}.

Definition runRounds (company : Company) (safeRounds : list SafeInvestment)
    (pricingRounds : list PricingRoundData) : Loop :=
  fold_left (processRound safeRounds) pricingRounds (init company).

(** [stakeholder.ownership = (stakeholder.shares / totalShares) * 100] *)
Definition setOwnership (totalShares : num) (x : OwnershipBreakdown) : OwnershipBreakdown :=
  {| stakeholder := stakeholder x;
     shares := shares x;
     ownership := (shares x / totalShares * hundred)%js;
     investment := investment x;
     type := type x |}.

(** [stakeholders.sort((a, b) => b.ownership - a.ownership)]: a stable sort;
    [a] goes after [b] when the comparator is positive.  (When an ownership
    is [NaN] the comparator is not an order and the result of JavaScript's
    sort is implementation-defined; the properties below use only that the
    result holds the same entries.) *)
Definition compareFn (a b : OwnershipBreakdown) : num := (ownership b - ownership a)%js.

Fixpoint insert (x : OwnershipBreakdown) (l : list OwnershipBreakdown) : list OwnershipBreakdown :=
  match l with
  | [] => [x]
  | y :: l' => if (compareFn x y > zero)%js then y :: insert x l' else x :: l
  end.

Definition sort (l : list OwnershipBreakdown) : list OwnershipBreakdown :=
  fold_right insert [] l.

Record DilutionPoint : Type := mkDilution {
  dil_round : string;
  founderOwnership : num
}.

(** The second loop of [ownershipData], over [runningShares]. *)
Definition dilutionStep (company : Company) (safeRounds : list SafeInvestment)
    (acc : num * list DilutionPoint) (round : PricingRoundData) : num * list DilutionPoint :=
  let '(runningShares, dilutionData) := acc in
  let safeShares := sumOf (convertedShares round runningShares) safeRounds in
  let newShares := newShares safeRounds round runningShares in
  let runningShares := (runningShares + (safeShares + newShares))%js in
  (runningShares,
   dilutionData ++
     [ {| dil_round := round_name round;
          founderOwnership := (foundersShares company / runningShares * hundred)%js |} ]).

Record OwnershipData : Type := mkOwnershipData {
  stakeholders : list OwnershipBreakdown;
  dilutionData : list DilutionPoint;
  totalShares : num;
  currentValuation : num;
  totalInvestment : num
}.

(** The stakeholders once their percentages are set, before the final sort. *)
Definition withOwnership (company : Company) (safeRounds : list SafeInvestment)
    (pricingRounds : list PricingRoundData) : list OwnershipBreakdown :=
  let st := runRounds company safeRounds pricingRounds in
  map (setOwnership (cur_totalShares st)) (cur_stakeholders st).

(** [ownershipData]; its [chartData] field is computed apart, by
    [chartData] below. *)
Definition ownershipData (company : Company) (safeRounds : list SafeInvestment)
    (pricingRounds : list PricingRoundData) : OwnershipData :=
  let st := runRounds company safeRounds pricingRounds in
  {| stakeholders := sort (withOwnership company safeRounds pricingRounds);
     dilutionData :=
       snd (fold_left (dilutionStep company safeRounds) pricingRounds
              (Index.totalShares company,
               [ {| dil_round := "Initial";
                    founderOwnership :=
                      (foundersShares company / Index.totalShares company * hundred)%js |} ]));
     totalShares := cur_totalShares st;
     currentValuation := cur_currentValuation st;
     totalInvestment :=
       (sumOf amount safeRounds + sumOf Index.investment pricingRounds)%js |}.

(** One slice of the pie chart. *)
Record ChartGroup : Type := mkGroup {
  cg_name : string;
  value : num;
  cg_shares : num;
  cg_investment : num;
  cg_type : StakeholderType;
  fill : string
}.

Definition COLORS (t : StakeholderType) : string :=
  match t with
  | founder => "hsl(var(--financial-success))"
  | safe => "hsl(var(--financial-warning))"
  | investor => "hsl(var(--financial-info))"
  end.

Definition groupName (t : StakeholderType) : string :=
  match t with
  | founder => "Founders"
  | safe => "SAFE Investors"
  | investor => "Equity Investors"
  end.

(** [existing.value += ...; existing.shares += ...; existing.investment += ...] *)
Definition addToGroup (x : OwnershipBreakdown) (g : ChartGroup) : ChartGroup :=
  {| cg_name := cg_name g;
     value := (value g + ownership x)%js;
     cg_shares := (cg_shares g + shares x)%js;
     cg_investment := (cg_investment g + investment x)%js;
     cg_type := cg_type g;
     fill := fill g |}.

Definition newGroup (x : OwnershipBreakdown) : ChartGroup :=
  {| cg_name := groupName (type x);
     value := ownership x;
     cg_shares := shares x;
     cg_investment := investment x;
     cg_type := type x;
     fill := COLORS (type x) |}.

(** The group that [acc.find(item => item.type === stakeholder.type)]
    returns is updated in place: the first group of the category. *)
Fixpoint updateExisting (x : OwnershipBreakdown) (acc : list ChartGroup) : list ChartGroup :=
  match acc with
  | [] => []
  | g :: acc' =>
      if StakeholderType_eqb (cg_type g) (type x)
      then addToGroup x g :: acc'
      else g :: updateExisting x acc'
  end.

(** The body of [stakeholders.reduce] that builds [chartData]. *)
Definition chartStep (acc : list ChartGroup) (x : OwnershipBreakdown) : list ChartGroup :=
  match find (fun item => StakeholderType_eqb (cg_type item) (type x)) acc with
  | Some _ => updateExisting x acc
  | None => acc ++ [newGroup x]
  end.

Definition groupByType (stakeholders : list OwnershipBreakdown) : list ChartGroup :=
  fold_left chartStep stakeholders [].

(** The [chartData] field of [ownershipData]: the grouping runs on the
    stakeholders with their percentages, before the final sort. *)
Definition chartData (company : Company) (safeRounds : list SafeInvestment)
    (pricingRounds : list PricingRoundData) : list ChartGroup :=
  groupByType (withOwnership company safeRounds pricingRounds).

End OwnershipTable.

(** ** The exit view ([components/ExitScenario.tsx]) *)

Module ExitScenario.

Record Stakeholder : Type := mkStakeholder {
  name : string;
  shares : num;
  investment : num;
  type : StakeholderType
}.

Record OwnershipStructure : Type := mkStructure {
  stakeholders : list Stakeholder;
  totalShares : num
}.

Definition init (company : Company) : OwnershipStructure :=
  {| stakeholders :=
       [ {| name := "Founders";
            shares := foundersShares company;
            investment := zero;
            type := founder |} ];
     totalShares := Index.totalShares company |}.

Definition safeEntry (round : PricingRoundData) (totalShares : num)
    (s : SafeInvestment) : Stakeholder :=
  {| name := investorName s;
     shares := convertedShares round totalShares s;
     investment := amount s;
     type := safe |}.

Definition investorEntry (pricePerShare : num) (inv : NewInvestor) : Stakeholder :=
  {| name := investor_name inv;
     shares := (investor_investment inv / pricePerShare)%js;
     investment := investor_investment inv;
     type := investor |}.

(** The body of [pricingRounds.forEach]: every SAFE note is pushed, then
    every investor of the round, then the total is updated. *)
Definition processRound (safeRounds : list SafeInvestment) (st : OwnershipStructure)
    (round : PricingRoundData) : OwnershipStructure :=
  let totalShares := totalShares st in
  let stakeholders1 := stakeholders st ++ map (safeEntry round totalShares) safeRounds in
  let pricePerShare := pricePerShare safeRounds round totalShares in
  let stakeholders2 := stakeholders1 ++ map (investorEntry pricePerShare) (newInvestors round) in
  let safeShares := sumOf (convertedShares round totalShares) safeRounds in
  let newShares := (Index.investment round / pricePerShare)%js in
  {| stakeholders := stakeholders2;
     totalShares := (totalShares + (safeShares + newShares))%js |}.

Definition runRounds (company : Company) (safeRounds : list SafeInvestment)
    (pricingRounds : list PricingRoundData) : OwnershipStructure :=
  fold_left (processRound safeRounds) pricingRounds (init company).

(** [ownershipStructure]: [None] is the [null] returned when no round
    exists. *)
Definition ownershipStructure (company : Company) (safeRounds : list SafeInvestment)
    (pricingRounds : list PricingRoundData) : option OwnershipStructure :=
  match pricingRounds with
  | [] => None
  | _ => Some (runRounds company safeRounds pricingRounds)
  end.

Record InvestorPayout : Type := mkPayout {
  ip_name : string;
  ip_investment : num;
  payout : num;
  roi : num;
  multiple : num
}.

Record ExitCalculation : Type := mkExit {
  exitValuation : num;
  founderPayout : num;
  founderROI : num;
  investorPayouts : list InvestorPayout;
  totalPayouts : num
}.

Definition investorPayout (pricePerShare : num) (s : Stakeholder) : InvestorPayout :=
  let payout := (shares s * pricePerShare)%js in
  let roi :=
    if (investment s > zero)%js
    then ((payout - investment s) / investment s * hundred)%js else zero in
  let multiple :=
    if (investment s > zero)%js then (payout / investment s)%js else zero in
  {| ip_name := name s;
     ip_investment := investment s;
     payout := payout;
     roi := roi;
     multiple := multiple |}.

(** The body of [exitValuations.map]. *)
Definition exitCalculation (os : OwnershipStructure) (exitVal : num) : ExitCalculation :=
  let pricePerShare := (exitVal / totalShares os)%js in
  let founderStakeholder :=
    find (fun s => (name s =? "Founders")%string) (stakeholders os) in
  let founderPayout :=
    match founderStakeholder with
    | Some s => (shares s * pricePerShare)%js
    | None => zero
    end in
  let investorPayouts :=
    map (investorPayout pricePerShare)
        (filter (fun s => negb (StakeholderType_eqb (type s) founder)) (stakeholders os)) in
  let totalPayouts := (founderPayout + sumOf payout investorPayouts)%js in
  {| exitValuation := exitVal;
     founderPayout := founderPayout;
     founderROI := zero;
     investorPayouts := investorPayouts;
     totalPayouts := totalPayouts |}.

Definition exitCalculations (exitValuations : list num)
    (ownershipStructure : option OwnershipStructure) : list ExitCalculation :=
  match ownershipStructure with
  | None => []
  | Some os => map (exitCalculation os) exitValuations
  end.

(** The initial [exitValuations] state. *)
Definition defaultExitValuations : list num :=
  [Fin 10000000; Fin 50000000; Fin 100000000; Fin 500000000].

(** The controls of the exit view: the [exitValuations] and
    [customValuation] state cells. *)
Record Controls : Type := mkControls {
  exitValuations : list num;
  customValuation : string
}.

Definition initialControls : Controls :=
  {| exitValuations := defaultExitValuations; customValuation := "" |}.

(** The comparison [Array.prototype.includes] makes: [NaN] is found. *)
Definition sameValueZero (a b : num) : bool :=
  match a, b with
  | Fin x, Fin y => Qeq_bool x y
  | PInf, PInf | NInf, NInf | NaN, NaN => true
  | _, _ => false
  end.

Definition includes (l : list num) (v : num) : bool := existsb (sameValueZero v) l.

(** [a !== b]: [NaN] differs from itself. *)
Definition strictNotEqual (a b : num) : bool :=
  match a, b with
  | Fin x, Fin y => negb (Qeq_bool x y)
  | PInf, PInf | NInf, NInf => false
  | _, _ => true
  end.

(** [list.sort((a, b) => a - b)]: a stable sort; [a] goes after [b] when
    the comparator is positive. *)
Fixpoint insertAscending (x : num) (l : list num) : list num :=
  match l with
  | [] => [x]
  | y :: l' => if (x - y > zero)%js then y :: insertAscending x l' else x :: l
  end.

Definition sortAscending (l : list num) : list num := fold_right insertAscending [] l.

Definition addCustomValuation (st : Controls) : Controls :=
  if nonEmpty (customValuation st)
     && negb (includes (exitValuations st) (parseFloat (customValuation st)))
  then {| exitValuations :=
            sortAscending (exitValuations st ++ [parseFloat (customValuation st)]);
          customValuation := "" |}
  else st.

Definition removeValuation (valuation : num) (st : Controls) : Controls :=
  {| exitValuations := filter (fun v => strictNotEqual v valuation) (exitValuations st);
     customValuation := customValuation st |}.

(** [onChange] of the custom valuation field. *)
Definition setCustomValuation (text : string) (st : Controls) : Controls :=
  {| exitValuations := exitValuations st; customValuation := text |}.

End ExitScenario.



(** ** The SAFE form ([SafeRound]) *)

Module SafeRound.

Record FormData : Type := mkForm {
  investorName : string;
  amount : string;
  discount : string;
  valuationCap : string
}.

(** The [safeData] that [handleSubmit] hands to [onAddSafe]. *)
Definition handleSubmit (formData : FormData) : SafeData :=
  {| sd_investorName := investorName formData;
     sd_amount := parseFloat (amount formData);
     sd_discount := parseFloat (discount formData);
     sd_valuationCap :=
       if nonEmpty (valuationCap formData)
       then Some (parseFloat (valuationCap formData)) else None |}.

End SafeRound.

(** ** The company form ([components/CompanySetup.tsx]) *)

Module CompanySetup.

Record FormData : Type := mkForm {
  name : string;
  foundersShares : string;
  totalShares : string;
  initialValuation : string
}.

(** The [company] that [handleSubmit] hands to [onSetup]. *)
Definition handleSubmit (formData : FormData) : Company :=
  {| Index.name := name formData;
     Index.foundersShares := parseInt (foundersShares formData);
     Index.totalShares := parseInt (totalShares formData);
     Index.initialValuation := parseFloat (initialValuation formData) |}.

End CompanySetup.

(** ** The round form and its preview ([PricingRound]) *)

Module PricingRound.

Record InvestorForm : Type := mkInvestorForm {
  if_name : string;
  if_investment : string
}.

Record FormData : Type := mkForm {
  name : string;
  preMoneyValuation : string;
  investment : string;
  newInvestors : list InvestorForm
}.

Record Calculations : Type := mkCalculations {
  preMoneyPricePerShare : num;
  newShares : num;
  safeShares : num;
  totalSharesAfter : num;
  postMoneyPricePerShare : num;
  postMoneyValuation : num;
  founderOwnership : num;
  safeOwnership : num;
  newInvestorOwnership : num
}.

(** [calculations]: [None] is the [null] returned while a field is empty. *)
Definition calculations (formData : FormData) (company : Company)
    (safeRounds : list SafeInvestment) : option Calculations :=
  if negb (nonEmpty (preMoneyValuation formData)) || negb (nonEmpty (investment formData))
  then None
  else
    let preMoneyVal := parseFloat (preMoneyValuation formData) in
    let totalInvestment := parseFloat (investment formData) in
    let postMoneyVal := (preMoneyVal + totalInvestment)%js in
    let totalSafeInvestment := sumOf Index.amount safeRounds in
    let '(safeShares, effectivePreMoney) :=
      match safeRounds with
      | [] => (zero, preMoneyVal)
      | _ =>
          (fold_left
             (fun safeShares s =>
                let discountPrice :=
                  (preMoneyVal * (one - Index.discount s / hundred))%js in
                let capPrice := (Index.valuationCap s || Infinity)%js in
                let conversionPrice := Math_min discountPrice capPrice in
                (safeShares +
                 Index.amount s / (conversionPrice / Index.totalShares company))%js)
             safeRounds zero,
           (preMoneyVal - totalSafeInvestment)%js)
      end in
    let preMoneyPricePerShare := (effectivePreMoney / Index.totalShares company)%js in
    let newShares := (totalInvestment / preMoneyPricePerShare)%js in
    let totalSharesAfter := (Index.totalShares company + safeShares + newShares)%js in
    let postMoneyPricePerShare := (postMoneyVal / totalSharesAfter)%js in
    Some
      {| preMoneyPricePerShare := preMoneyPricePerShare;
         newShares := newShares;
         safeShares := safeShares;
         totalSharesAfter := totalSharesAfter;
         postMoneyPricePerShare := postMoneyPricePerShare;
         postMoneyValuation := postMoneyVal;
         founderOwnership := (Index.foundersShares company / totalSharesAfter * hundred)%js;
         safeOwnership := (safeShares / totalSharesAfter * hundred)%js;
         newInvestorOwnership := (newShares / totalSharesAfter * hundred)%js |}.

(** The [roundData] that [handleSubmit] hands to [onAddRound]. *)
Definition handleSubmit (formData : FormData) : RoundData :=
  let validInvestors :=
    filter (fun inv => nonEmpty (if_name inv) && nonEmpty (if_investment inv))
           (newInvestors formData) in
  {| rd_name := name formData;
     rd_preMoneyValuation := parseFloat (preMoneyValuation formData);
     rd_investment := parseFloat (investment formData);
     rd_newInvestors :=
       map (fun inv =>
              {| investor_name := if_name inv;
                 investor_investment := parseFloat (if_investment inv) |})
           validInvestors |}.

(** The form as [useState] initialises it and as [handleSubmit] resets it. *)
Definition initialForm : FormData :=
  {| name := "";
     preMoneyValuation := "";
     investment := "";
     newInvestors := [ {| if_name := ""; if_investment := "" |} ] |}.

Definition setInvestors (l : list InvestorForm) (formData : FormData) : FormData :=
  {| name := name formData;
     preMoneyValuation := preMoneyValuation formData;
     investment := investment formData;
     newInvestors := l |}.

Definition addInvestor (formData : FormData) : FormData :=
  setInvestors (newInvestors formData ++ [ {| if_name := ""; if_investment := "" |} ]) formData.

(** [{ ...inv, [field]: value }]: the rows are read through [name] and
    [investment] only, so another key leaves the row as it reads. *)
Definition setField (field value : string) (inv : InvestorForm) : InvestorForm :=
  if (field =? "name")%string
  then {| if_name := value; if_investment := if_investment inv |}
  else if (field =? "investment")%string
  then {| if_name := if_name inv; if_investment := value |}
  else inv.

(** [list.map((x, i) => f(x, i))] *)
Fixpoint mapi {A B : Type} (f : A -> nat -> B) (i : nat) (l : list A) : list B :=
  match l with
  | [] => []
  | x :: r => f x i :: mapi f (S i) r
  end.

(** [list.filter((x, i) => p(x, i))] *)
Fixpoint filteri {A : Type} (p : A -> nat -> bool) (i : nat) (l : list A) : list A :=
  match l with
  | [] => []
  | x :: r => if p x i then x :: filteri p (S i) r else filteri p (S i) r
  end.

Definition updateInvestor (index : nat) (field value : string) (formData : FormData) : FormData :=
  setInvestors
    (mapi (fun inv i => if (i =? index)%nat then setField field value inv else inv)
          0 (newInvestors formData))
    formData.

Definition removeInvestor (index : nat) (formData : FormData) : FormData :=
  setInvestors (filteri (fun _ i => negb (i =? index)%nat) 0 (newInvestors formData)) formData.

End PricingRound.

(** ** The scenario of the written specification *)

Module Scenario.

Definition acme : Company :=
  {| Index.name := "Acme";
     foundersShares := Fin 8000000;
     Index.totalShares := Fin 10000000;
     initialValuation := Fin 1000000 |}.

Definition angel : SafeData :=
  {| sd_investorName := "Angel";
     sd_amount := Fin 250000;
     sd_discount := Fin 20;
     sd_valuationCap := Some (Fin 5000000) |}.

Definition seriesA : RoundData :=
  {| rd_name := "Series A";
     rd_preMoneyValuation := Fin 8000000;
     rd_investment := Fin 2000000;
     rd_newInvestors := [ {| investor_name := "VC"; investor_investment := Fin 2000000 |} ] |}.

(** The page state after the company is set up, the SAFE note is added and
    the round is added. *)
Definition state : State :=
  handlePricingRound "r1" seriesA
    (handleSafeRound "s1" angel
       (handleCompanySetup acme initialState)).

(** The note and the round as the page state holds them. *)
Definition note : SafeInvestment :=
  {| safe_id := "s1";
     investorName := "Angel";
     amount := Fin 250000;
     discount := Fin 20;
     valuationCap := Some (Fin 5000000);
     converted := true |}.

Definition round : PricingRoundData :=
  {| round_id := "r1";
     round_name := "Series A";
     preMoneyValuation := Fin 8000000;
     investment := Fin 2000000;
     newInvestors := [ {| investor_name := "VC"; investor_investment := Fin 2000000 |} ] |}.

(** The preview form of the round while it is typed in. *)
Definition roundForm : PricingRound.FormData :=
  {| PricingRound.name := "Series A";
     PricingRound.preMoneyValuation := "8000000";
     PricingRound.investment := "2000000";
     PricingRound.newInvestors :=
       [ {| PricingRound.if_name := "VC"; PricingRound.if_investment := "2000000" |} ] |}.

(** A second round added later. *)
Definition seriesB : RoundData :=
  {| rd_name := "Series B";
     rd_preMoneyValuation := Fin 20000000;
     rd_investment := Fin 5000000;
     rd_newInvestors :=
       [ {| investor_name := "Growth"; investor_investment := Fin 5000000 |} ] |}.

Definition roundB : PricingRoundData :=
  {| round_id := "r2";
     round_name := "Series B";
     preMoneyValuation := Fin 20000000;
     investment := Fin 5000000;
     newInvestors :=
       [ {| investor_name := "Growth"; investor_investment := Fin 5000000 |} ] |}.

Definition stateTwoRounds : State := handlePricingRound "r2" seriesB state.

(** A SAFE note added after the round. *)
Definition late : SafeData :=
  {| sd_investorName := "Late";
     sd_amount := Fin 100000;
     sd_discount := Fin 10;
     sd_valuationCap := None |}.

Definition lateNote : SafeInvestment :=
  {| safe_id := "s2";
     investorName := "Late";
     amount := Fin 100000;
     discount := Fin 10;
     valuationCap := None;
     converted := false |}.

Definition stateLateSafe : State := handleSafeRound "s2" late state.





(** A round with an investor who pays nothing. *)
Definition roundWithAdvisor : PricingRoundData :=
  {| round_id := "r1";
     round_name := "Series A";
     preMoneyValuation := Fin 8000000;
     investment := Fin 2000000;
     newInvestors :=
       [ {| investor_name := "VC"; investor_investment := Fin 2000000 |};
         {| investor_name := "Advisor"; investor_investment := Fin 0 |} ] |}.

(** A company form in which the founders hold more than all the shares and
    the valuation is negative. *)
Definition badForm : CompanySetup.FormData :=
  {| CompanySetup.name := "Acme";
     CompanySetup.foundersShares := "20";
     CompanySetup.totalShares := "10";
     CompanySetup.initialValuation := "-5" |}.

(** Two notes under one name: added before the round, and after it. *)
Definition angelAgain : SafeData :=
  {| sd_investorName := "Angel";
     sd_amount := Fin 100000;
     sd_discount := Fin 10;
     sd_valuationCap := None |}.

Definition noteAgain : SafeInvestment :=
  {| safe_id := "s2";
     investorName := "Angel";
     amount := Fin 100000;
     discount := Fin 10;
     valuationCap := None;
     converted := true |}.

Definition stateSameName : State :=
  handlePricingRound "r1" seriesA
    (handleSafeRound "s2" angelAgain
       (handleSafeRound "s1" angel
          (handleCompanySetup acme initialState))).

(** The holder of the two notes also invests in the round. *)
Definition seriesAWithAngel : RoundData :=
  {| rd_name := "Series A";
     rd_preMoneyValuation := Fin 8000000;
     rd_investment := Fin 2000000;
     rd_newInvestors :=
       [ {| investor_name := "VC"; investor_investment := Fin 1500000 |};
         {| investor_name := "Angel"; investor_investment := Fin 500000 |} ] |}.

Definition stateAngelInRound : State :=
  handlePricingRound "r1" seriesAWithAngel
    (handleSafeRound "s2" angelAgain
       (handleSafeRound "s1" angel
          (handleCompanySetup acme initialState))).

Definition twin : SafeData :=
  {| sd_investorName := "Twin";
     sd_amount := Fin 100000;
     sd_discount := Fin 10;
     sd_valuationCap := None |}.

Definition stateLateTwins : State :=
  handleSafeRound "s3" twin (handleSafeRound "s2" twin state).


Definition plainNote : SafeInvestment :=
  {| safe_id := "s1";
     investorName := "Plain";
     amount := Fin 250000;
     discount := Fin 0;
     valuationCap := None;
     converted := true |}.

(** A SAFE form with a cap of 0 typed in, and a note at a 100% discount. *)
Definition zeroCapForm : SafeRound.FormData :=
  {| SafeRound.investorName := "Angel";
     SafeRound.amount := "250000";
     SafeRound.discount := "20";
     SafeRound.valuationCap := "0" |}.

Definition freeNote : SafeInvestment :=
  {| safe_id := "s1";
     investorName := "Free";
     amount := Fin 250000;
     discount := Fin 100;
     valuationCap := Some (Fin 5000000);
     converted := true |}.

(** The controls of the exit view with 25,000,000 typed in. *)
Definition controlsTyped : ExitScenario.Controls :=
  ExitScenario.setCustomValuation "25000000" ExitScenario.initialControls.

(** The round form with its numbers typed in and the investor row left
    blank. *)
Definition blankRowForm : PricingRound.FormData :=
  {| PricingRound.name := "Series A";
     PricingRound.preMoneyValuation := "8000000";
     PricingRound.investment := "2000000";
     PricingRound.newInvestors :=
       [ {| PricingRound.if_name := ""; PricingRound.if_investment := "" |} ] |}.

(** The note of the scenario as the exit view lists it. *)
Definition angelEntry : ExitScenario.Stakeholder :=
  {| ExitScenario.name := "Angel";
     ExitScenario.shares := Fin 500000;
     ExitScenario.investment := Fin 250000;
     ExitScenario.type := safe |}.

End Scenario.

(** ** Reading a snapshot *)

(** [a] is [v] to two decimal places. *)
Definition approx2 (a : num) (v : Q) : Prop :=
  match a with
  | Fin x => Qabs (x - v) <= 0.005
  | _ => False
  end.

Definition ownershipEntry (n : string) (l : list OwnershipTable.OwnershipBreakdown)
    : option OwnershipTable.OwnershipBreakdown :=
  find (fun x => (OwnershipTable.stakeholder x =? n)%string) l.

(** An ownership entry read as an exit-view entry: the same name, share
    count, invested amount and category. *)
Definition toExit (x : OwnershipTable.OwnershipBreakdown) : ExitScenario.Stakeholder :=
  {| ExitScenario.name := OwnershipTable.stakeholder x;
     ExitScenario.shares := OwnershipTable.shares x;
     ExitScenario.investment := OwnershipTable.investment x;
     ExitScenario.type := OwnershipTable.type x |}.

(** The loop state of the ownership view read as an exit-view state. *)
Definition toExitState (st : OwnershipTable.Loop) : ExitScenario.OwnershipStructure :=
  {| ExitScenario.stakeholders := map toExit (OwnershipTable.cur_stakeholders st);
     ExitScenario.totalShares := OwnershipTable.cur_totalShares st |}.

(** The entry the ownership view pushes for a note. *)
Definition safeBreakdown (round : PricingRoundData) (totalShares : num)
    (s : SafeInvestment) : OwnershipTable.OwnershipBreakdown :=
  {| OwnershipTable.stakeholder := investorName s;
     OwnershipTable.shares := convertedShares round totalShares s;
     OwnershipTable.ownership := zero;
     OwnershipTable.investment := amount s;
     OwnershipTable.type := safe |}.

Definition names (l : list OwnershipTable.OwnershipBreakdown) : list string :=
  map OwnershipTable.stakeholder l.

(** ** Integers as typed into a form *)

(** The digits of a decimal numeral, most significant first. *)
Fixpoint digitsOf (d : Decimal.uint) : list Z :=
  match d with
  | Decimal.Nil => []
  | Decimal.D0 d => 0%Z :: digitsOf d
  | Decimal.D1 d => 1%Z :: digitsOf d
  | Decimal.D2 d => 2%Z :: digitsOf d
  | Decimal.D3 d => 3%Z :: digitsOf d
  | Decimal.D4 d => 4%Z :: digitsOf d
  | Decimal.D5 d => 5%Z :: digitsOf d
  | Decimal.D6 d => 6%Z :: digitsOf d
  | Decimal.D7 d => 7%Z :: digitsOf d
  | Decimal.D8 d => 8%Z :: digitsOf d
  | Decimal.D9 d => 9%Z :: digitsOf d
  end.

(** The decimal numeral of an integer: ["0"], ["42"], ["-7"]. *)
Definition showZ (z : Z) : string := NilZero.string_of_int (Z.to_int z).

(** The integers a [number] holds exactly, whatever their numeral:
    [Number.isSafeInteger], an absolute value of at most [2^53 - 1]. *)
Definition isSafeInteger (z : Z) : Prop := (Z.abs z <= 2 ^ 53 - 1)%Z.

(** ** Entries under one name *)

Definition named (n : string) (x : OwnershipTable.OwnershipBreakdown) : bool :=
  (OwnershipTable.stakeholder x =? n)%string.

(** The first note under the name [n] that is flagged converted. *)
Definition firstConverted (n : string) (safes : list SafeInvestment) : option SafeInvestment :=
  find (fun s => converted s && (investorName s =? n)%string) safes.

(** ** The domain of valid inputs *)

Definition positive (a : num) : Prop :=
  match a with
  | Fin x => 0 < x
  | _ => False
  end.

Definition finite (a : num) : Prop := isFinite a = true.

(** The rational a finite number holds. *)
Definition toQ (a : num) : Q :=
  match a with
  | Fin x => x
  | _ => 0
  end.

(** A positive amount, a discount in [0, 100), a positive cap when there is
    one. *)
Definition validSafe (s : SafeInvestment) : Prop :=
  positive (amount s) /\
  (exists d, discount s = Fin d /\ 0 <= d /\ d < 100) /\
  match valuationCap s with
  | Some c => positive c
  | None => True
  end.

(** A pre-money valuation above the total of the SAFE notes, positive
    investments. *)
Definition validRound (safes : list SafeInvestment) (r : PricingRoundData) : Prop :=
  positive (effectivePreMoney safes r) /\
  positive (investment r) /\
  Forall (fun i => positive (investor_investment i)) (newInvestors r).

Definition validCompany (c : Company) : Prop :=
  positive (Index.totalShares c) /\ finite (foundersShares c).

(** The round's [investment] field is the sum of its investors' amounts. *)
Definition investmentsAddUp (r : PricingRoundData) : Prop :=
  sumOf investor_investment (newInvestors r) =~= investment r.

(** The shares of the company that no stakeholder holds. *)
Definition unallocated (c : Company) : num :=
  (Index.totalShares c - foundersShares c)%js.

(** The sum of [g] over [l] in the rationals, from [a]. *)
Definition Qsum {A : Type} (g : A -> Q) (l : list A) (a : Q) : Q :=
  fold_left (fun acc x => acc + g x) l a.

(** The exit-view state is balanced: a positive finite total, finite share
    counts, and the stakeholders' shares with the [u] unallocated shares add
    up to the total. *)
Definition balanced (u : Q) (os : ExitScenario.OwnershipStructure) : Prop :=
  exists t,
    ExitScenario.totalShares os = Fin t /\ 0 < t /\
    Forall (fun x => finite (ExitScenario.shares x)) (ExitScenario.stakeholders os) /\
    Qsum (fun x => toQ (ExitScenario.shares x)) (ExitScenario.stakeholders os) 0 + u == t.


(** ** The conversion price as the specification words it *)

Module Spec.

Definition discountPrice (round : PricingRoundData) (totalSharesBefore : num)
    (s : SafeInvestment) : num :=
  (preMoneyValuation round / totalSharesBefore * (one - discount s / hundred))%js.

Definition capPrice (totalSharesBefore : num) (s : SafeInvestment) : num :=
  match valuationCap s with
  | Some cap => (cap / totalSharesBefore)%js
  | None => Infinity
  end.

Definition conversionPricePerShare (round : PricingRoundData) (totalSharesBefore : num)
    (s : SafeInvestment) : num :=
  Math_min (discountPrice round totalSharesBefore s) (capPrice totalSharesBefore s).

End Spec.

(** ** Reading a sequence of handler calls *)

Definition isAddRound (e : Event) : bool :=
  match e with AddRound _ _ => true | _ => false end.

Definition isAddSafe (e : Event) : bool :=
  match e with AddSafe _ _ => true | _ => false end.

(** The note [handleSafeRound] builds, with the flag it carries. *)
Definition noteOf (id : string) (safeData : SafeData) (flag : bool) : SafeInvestment :=
  {| safe_id := id;
     investorName := sd_investorName safeData;
     amount := sd_amount safeData;
     discount := sd_discount safeData;
     valuationCap := sd_valuationCap safeData;
     converted := flag |}.

(** The round [handlePricingRound] builds. *)
Definition roundOf (id : string) (roundData : RoundData) : PricingRoundData :=
  {| round_id := id;
     round_name := rd_name roundData;
     preMoneyValuation := rd_preMoneyValuation roundData;
     investment := rd_investment roundData;
     newInvestors := rd_newInvestors roundData |}.

(** ** The order of the table *)

(** [a] may stand before [b]: [b]'s percentage is not above [a]'s. *)
Definition notBelow (a b : OwnershipTable.OwnershipBreakdown) : Prop :=
  (OwnershipTable.ownership b > OwnershipTable.ownership a)%js = false.

(** ** The slices of the pie chart *)

(** [l.reduce((a, x) => a + f(x))] without an initial value, 0 on the empty
    list. *)
Definition sumFromFirst {A : Type} (f : A -> num) (l : list A) : num :=
  match l with
  | [] => zero
  | x :: r => fold_left (fun a y => (a + f y)%js) r (f x)
  end.

(** The stakeholders of one category, in the order of the list. *)
Definition ofType (t : StakeholderType) (l : list OwnershipTable.OwnershipBreakdown)
    : list OwnershipTable.OwnershipBreakdown :=
  filter (fun x => StakeholderType_eqb (OwnershipTable.type x) t) l.

(** The slice of a category: the percentages, shares and invested amounts of
    its stakeholders added up in the order of the list. *)
Definition sliceOf (l : list OwnershipTable.OwnershipBreakdown) (t : StakeholderType)
    : OwnershipTable.ChartGroup :=
  {| OwnershipTable.cg_name := OwnershipTable.groupName t;
     OwnershipTable.value := sumFromFirst OwnershipTable.ownership (ofType t l);
     OwnershipTable.cg_shares := sumFromFirst OwnershipTable.shares (ofType t l);
     OwnershipTable.cg_investment := sumFromFirst OwnershipTable.investment (ofType t l);
     OwnershipTable.cg_type := t;
     OwnershipTable.fill := OwnershipTable.COLORS t |}.

(** The grouping [acc] is the grouping of the stakeholders [done]. *)
Definition grouped (acc : list OwnershipTable.ChartGroup)
    (done : list OwnershipTable.OwnershipBreakdown) : Prop :=
  NoDup (map OwnershipTable.cg_type acc) /\
  (forall t, In t (map OwnershipTable.cg_type acc) <-> In t (map OwnershipTable.type done)) /\
  Forall (fun g => g = sliceOf done (OwnershipTable.cg_type g)) acc.

(** ** The list of exit valuations *)

(** [a] is strictly below [b]. *)
Definition below (a b : num) : Prop := (b > a)%js = true.

(** Finite valuations in strictly ascending order: sorted, no value twice. *)
Definition orderly (l : list num) : Prop :=
  Forall finite l /\ StronglySorted below l.

(** * Properties *)

(** ** The worked scenario *)

Ltac by_computation :=
  vm_compute;
  repeat match goal with
         | |- _ /\ _ => split
         | |- exists _, _ => eexists
         end;
  try reflexivity; try discriminate.

(** C1.  In the scenario of the specification (8,000,000 founder shares of
    10,000,000, one SAFE note of 250,000 at a 20% discount and a 5,000,000
    cap, one round at 8,000,000 pre-money raising 2,000,000): the note
    converts at 0.5 per share into 500,000 shares, the effective pre-money is
    7,750,000, the round is priced at 0.775 per share, the new investor
    receives 2,580,645.16 shares, 13,080,645.16 shares are outstanding
    afterwards and the founders own 61.16%, both in the ownership view and
    in the preview of the round form. *)
Theorem C1_worked_scenario :
  let shares0 := Index.totalShares Scenario.acme in
  let safes := safeRounds Scenario.state in
  let rounds := pricingRounds Scenario.state in
  let data := OwnershipTable.ownershipData Scenario.acme safes rounds in
  safes = [Scenario.note] /\
  rounds = [Scenario.round] /\
  sharePrice Scenario.round shares0 Scenario.note =~= Fin 0.5 /\
  convertedShares Scenario.round shares0 Scenario.note =~= Fin 500000 /\
  effectivePreMoney safes Scenario.round =~= Fin 7750000 /\
  pricePerShare safes Scenario.round shares0 =~= Fin 0.775 /\
  (exists angel vc founders,
     ownershipEntry "Angel" (OwnershipTable.stakeholders data) = Some angel /\
     ownershipEntry "VC" (OwnershipTable.stakeholders data) = Some vc /\
     ownershipEntry "Founders" (OwnershipTable.stakeholders data) = Some founders /\
     OwnershipTable.shares angel =~= Fin 500000 /\
     approx2 (OwnershipTable.shares vc) 2580645.16 /\
     approx2 (OwnershipTable.totalShares data) 13080645.16 /\
     approx2 (OwnershipTable.ownership founders) 61.16) /\
  (exists c,
     PricingRound.calculations Scenario.roundForm Scenario.acme safes = Some c /\
     PricingRound.preMoneyPricePerShare c =~= Fin 0.775 /\
     PricingRound.safeShares c =~= Fin 500000 /\
     approx2 (PricingRound.newShares c) 2580645.16 /\
     approx2 (PricingRound.totalSharesAfter c) 13080645.16 /\
     approx2 (PricingRound.founderOwnership c) 61.16).
Proof. by_computation. Qed.

(** ** Sums *)

Section Sums.

Context {A : Type}.

Lemma Qsum_shift (g : A -> Q) (l : list A) (a : Q) :
  Qsum g l a == a + Qsum g l 0.
Proof.
  unfold Qsum. revert a.
  induction l as [|x l IH]; intros a; simpl.
  - ring.
  - rewrite IH. rewrite (IH (0 + g x)). ring.
Qed.

Lemma Qsum_cons (g : A -> Q) (x : A) (l : list A) :
  Qsum g (x :: l) 0 == g x + Qsum g l 0.
Proof.
  unfold Qsum at 1. simpl. fold (Qsum g l (0 + g x)).
  rewrite Qsum_shift. ring.
Qed.

Lemma Qsum_app (g : A -> Q) (l1 l2 : list A) :
  Qsum g (l1 ++ l2) 0 == Qsum g l1 0 + Qsum g l2 0.
Proof.
  induction l1 as [|x l1 IH].
  - change (Qsum g [] 0) with 0. simpl. ring.
  - rewrite <- app_comm_cons, !Qsum_cons, IH. ring.
Qed.

Lemma Qsum_ext (g h : A -> Q) (l : list A) :
  Forall (fun x => g x == h x) l -> Qsum g l 0 == Qsum h l 0.
Proof.
  induction 1 as [|x l Hx _ IH].
  - reflexivity.
  - rewrite !Qsum_cons, IH, Hx. reflexivity.
Qed.

Lemma Qsum_div (g : A -> Q) (p : Q) (l : list A) :
  Qsum (fun x => g x / p) l 0 == Qsum g l 0 / p.
Proof.
  induction l as [|x l IH].
  - unfold Qsum; simpl. unfold Qdiv. ring.
  - rewrite !Qsum_cons, IH. unfold Qdiv. ring.
Qed.

Lemma Qsum_mult (g : A -> Q) (p : Q) (l : list A) :
  Qsum (fun x => g x * p) l 0 == Qsum g l 0 * p.
Proof.
  induction l as [|x l IH].
  - unfold Qsum; simpl. ring.
  - rewrite !Qsum_cons, IH. ring.
Qed.

Lemma Qsum_perm (g : A -> Q) (l l' : list A) :
  Permutation l l' -> Qsum g l 0 == Qsum g l' 0.
Proof.
  induction 1 as [| x l l' _ IH | x y l | l l' l'' _ IH1 _ IH2].
  - reflexivity.
  - rewrite !Qsum_cons, IH. reflexivity.
  - rewrite !Qsum_cons. ring.
  - rewrite IH1. exact IH2.
Qed.

Lemma Qsum_nonneg (g : A -> Q) (l : list A) :
  Forall (fun x => 0 <= g x) l -> 0 <= Qsum g l 0.
Proof.
  induction 1 as [|x l Hx _ IH].
  - unfold Qsum; simpl. lra.
  - rewrite Qsum_cons. lra.
Qed.

(** On finite terms the sum of numbers is the sum of rationals. *)
Lemma fold_add_fin (f : A -> num) (l : list A) (a : Q) :
  Forall (fun x => finite (f x)) l ->
  fold_left (fun sum x => (sum + f x)%js) l (Fin a) = Fin (Qsum (fun x => toQ (f x)) l a).
Proof.
  unfold Qsum. revert a.
  induction l as [|x l IH]; intros a H; simpl.
  - reflexivity.
  - inversion H as [|? ? Hx Hl]; subst.
    unfold finite in Hx. destruct (f x) as [q| | |] eqn:E; try discriminate.
    simpl. apply IH, Hl.
Qed.

Lemma sumOf_fin (f : A -> num) (l : list A) :
  Forall (fun x => finite (f x)) l ->
  sumOf f l = Fin (Qsum (fun x => toQ (f x)) l 0).
Proof. intros H. unfold sumOf, zero. now apply fold_add_fin. Qed.

End Sums.

Lemma Qsum_map {A B : Type} (f : A -> B) (g : B -> Q) (l : list A) (a : Q) :
  Qsum g (map f l) a = Qsum (fun x => g (f x)) l a.
Proof.
  unfold Qsum. revert a. induction l as [|x l IH]; intros a; simpl.
  - reflexivity.
  - apply IH.
Qed.

(** ** Arithmetic on finite numbers *)

Lemma isZero_false (q : Q) : ~ q == 0 -> isZero q = false.
Proof.
  intros H. unfold isZero. destruct (Qeq_bool q 0) eqn:E; [|reflexivity].
  apply Qeq_bool_eq in E. contradiction.
Qed.

Lemma div_fin (x y : Q) : ~ y == 0 -> (Fin x / Fin y)%js = Fin (x / y).
Proof. intros H. simpl. now rewrite isZero_false. Qed.

Lemma positive_inv (a : num) : positive a -> exists x, a = Fin x /\ 0 < x.
Proof. destruct a; simpl; try contradiction. eauto. Qed.

Lemma finite_inv (a : num) : finite a -> a = Fin (toQ a).
Proof. destruct a; unfold finite; simpl; try discriminate. reflexivity. Qed.

Lemma positive_finite (a : num) : positive a -> finite a.
Proof. destruct a; simpl; try contradiction. reflexivity. Qed.

Lemma Qdiv_pos (x y : Q) : 0 < x -> 0 < y -> 0 < x / y.
Proof.
  intros Hx Hy. unfold Qdiv. apply Qmult_lt_0_compat; [assumption|].
  now apply Qinv_lt_0_compat.
Qed.

Lemma Qpos_neq (x : Q) : 0 < x -> ~ x == 0.
Proof. intros H E. rewrite E in H. now apply Qlt_irrefl in H. Qed.

Lemma one_minus_percent (d : Q) :
  (one - Fin d / hundred)%js = Fin (1 + - (d / 100)).
Proof. reflexivity. Qed.

Section Conversion.

Variable round : PricingRoundData.
Variable s : SafeInvestment.
Variables p t : Q.
Hypothesis Hp : preMoneyValuation round = Fin p.
Hypothesis Hppos : 0 < p.
Hypothesis Htpos : 0 < t.
Hypothesis Hs : validSafe s.

Lemma discountPrice_pos :
  exists d, discount s = Fin d /\ 0 <= d /\ d < 100 /\
            discountPrice round s = Fin (p * (1 + - (d / 100))) /\
            0 < p * (1 + - (d / 100)).
Proof.
  destruct Hs as (_ & (d & Hd & Hd0 & Hd100) & _).
  exists d. repeat split; try assumption.
  - unfold discountPrice. rewrite Hp, Hd, one_minus_percent. reflexivity.
  - apply Qmult_lt_0_compat; [assumption|].
    assert (d / 100 < 1); [|lra].
    apply Qlt_shift_div_r; lra.
Qed.

Lemma conversionPrice_pos :
  exists m, conversionPrice round s = Fin m /\ 0 < m.
Proof.
  destruct discountPrice_pos as (d & _ & _ & _ & Hdp & Hpos).
  destruct Hs as (_ & _ & Hcap).
  unfold conversionPrice, capPrice. rewrite Hdp.
  destruct (valuationCap s) as [c|]; simpl.
  - apply positive_inv in Hcap. destruct Hcap as (c' & -> & Hc').
    simpl. rewrite (isZero_false (Qpos_neq Hc')). simpl.
    destruct (Qle_bool _ _); eauto.
  - eauto.
Qed.

Lemma sharePrice_pos :
  exists m, conversionPrice round s = Fin m /\ 0 < m /\
            sharePrice round (Fin t) s = Fin (m / t).
Proof.
  destruct conversionPrice_pos as (m & Hm & Hmpos).
  exists m. repeat split; try assumption.
  unfold sharePrice. rewrite Hm. apply div_fin. now apply Qpos_neq.
Qed.

Lemma convertedShares_pos :
  exists c, convertedShares round (Fin t) s = Fin c /\ 0 < c.
Proof.
  destruct sharePrice_pos as (m & _ & Hmpos & Hsp).
  destruct Hs as (Ha & _). apply positive_inv in Ha. destruct Ha as (a & Ha & Hapos).
  exists (a / (m / t)). unfold convertedShares. rewrite Hsp, Ha.
  assert (0 < m / t) by now apply Qdiv_pos.
  split; [apply div_fin; now apply Qpos_neq | now apply Qdiv_pos].
Qed.

End Conversion.

Lemma roundSafeInvestment_fin (safes : list SafeInvestment) :
  Forall validSafe safes ->
  roundSafeInvestment safes = Fin (Qsum (fun x => toQ (amount x)) safes 0) /\
  0 <= Qsum (fun x => toQ (amount x)) safes 0.
Proof.
  intros H. split.
  - apply sumOf_fin. eapply Forall_impl; [|exact H].
    intros x (Hx & _). now apply positive_finite.
  - apply Qsum_nonneg. eapply Forall_impl; [|exact H].
    intros x (Hx & _). apply positive_inv in Hx. destruct Hx as (a & -> & Ha).
    simpl. lra.
Qed.

(** A valid round has a positive pre-money valuation and a positive price
    per share. *)
Lemma validRound_inv (safes : list SafeInvestment) (r : PricingRoundData) (t : Q) :
  Forall validSafe safes -> validRound safes r -> 0 < t ->
  exists p e,
    preMoneyValuation r = Fin p /\ 0 < p /\
    effectivePreMoney safes r = Fin e /\ 0 < e /\
    pricePerShare safes r (Fin t) = Fin (e / t) /\ 0 < e / t.
Proof.
  intros Hs (He & _) Ht.
  destruct (roundSafeInvestment_fin Hs) as (Hsum & Hnn).
  unfold effectivePreMoney in He |- *. unfold pricePerShare, effectivePreMoney.
  rewrite Hsum in *.
  destruct (preMoneyValuation r) as [p| | |]; simpl in He; try contradiction.
  exists p, (p + - Qsum (fun x => toQ (amount x)) safes 0).
  simpl. repeat split; try lra.
  - now rewrite (isZero_false (Qpos_neq Ht)).
  - now apply Qdiv_pos.
Qed.

(** ** The exit view on valid inputs *)

Section ExitStep.

Variable safes : list SafeInvestment.
Hypothesis Hsafes : Forall validSafe safes.

Lemma safeEntries_sum (r : PricingRoundData) (p t : Q) :
  preMoneyValuation r = Fin p -> 0 < p -> 0 < t ->
  Forall (fun x => finite (ExitScenario.shares x))
         (map (ExitScenario.safeEntry r (Fin t)) safes) /\
  sumOf (convertedShares r (Fin t)) safes =
    Fin (Qsum (fun x => toQ (ExitScenario.shares x))
              (map (ExitScenario.safeEntry r (Fin t)) safes) 0) /\
  0 <= Qsum (fun x => toQ (ExitScenario.shares x))
            (map (ExitScenario.safeEntry r (Fin t)) safes) 0.
Proof.
  intros Hp Hpp Ht.
  assert (Hall : Forall (fun x => exists c, convertedShares r (Fin t) x = Fin c /\ 0 < c) safes).
  { eapply Forall_impl; [|exact Hsafes]. intros x Hx.
    eapply convertedShares_pos; eauto. }
  clear Hsafes.
  assert (Hfin : Forall (fun x => finite (convertedShares r (Fin t) x)) safes).
  { eapply Forall_impl; [|exact Hall]. intros x (c & -> & _). reflexivity. }
  repeat split.
  - apply Forall_map. exact Hfin.
  - rewrite (sumOf_fin _ Hfin). f_equal. rewrite Qsum_map. reflexivity.
  - apply Qsum_nonneg, Forall_map. eapply Forall_impl; [|exact Hall].
    intros x (c & Hc & Hpos). simpl. rewrite Hc. simpl. lra.
Qed.

Lemma investorEntries_sum (r : PricingRoundData) (q : Q) :
  0 < q ->
  Forall (fun i => positive (investor_investment i)) (newInvestors r) ->
  Forall (fun x => finite (ExitScenario.shares x))
         (map (ExitScenario.investorEntry (Fin q)) (newInvestors r)) /\
  Qsum (fun x => toQ (ExitScenario.shares x))
       (map (ExitScenario.investorEntry (Fin q)) (newInvestors r)) 0
  == Qsum (fun i => toQ (investor_investment i)) (newInvestors r) 0 / q.
Proof.
  intros Hq Hinv.
  assert (Hall : Forall (fun i => (investor_investment i / Fin q)%js
                                  = Fin (toQ (investor_investment i) / q)) (newInvestors r)).
  { eapply Forall_impl; [|exact Hinv]. intros i Hi.
    apply positive_inv in Hi. destruct Hi as (a & -> & _).
    apply div_fin. now apply Qpos_neq. }
  split.
  - apply Forall_map. eapply Forall_impl; [|exact Hall].
    intros i Hi. simpl. rewrite Hi. reflexivity.
  - rewrite <- Qsum_div, Qsum_map.
    apply Qsum_ext. eapply Forall_impl; [|exact Hall].
    intros i Hi. simpl. rewrite Hi. reflexivity.
Qed.

Lemma balanced_step (u : Q) (os : ExitScenario.OwnershipStructure) (r : PricingRoundData) :
  balanced u os -> validRound safes r -> investmentsAddUp r ->
  balanced u (ExitScenario.processRound safes os r).
Proof.
  intros (t & Ht & Htpos & Hfin & Hsum) Hr Hadd.
  destruct (validRound_inv Hsafes Hr Htpos) as (p & e & Hp & Hppos & _ & _ & Hpps & Hq).
  destruct Hr as (_ & Hinv & Hinvs).
  destruct (safeEntries_sum r Hp Hppos Htpos) as (Hsfin & Hssum & Hsnn).
  destruct (investorEntries_sum r Hq Hinvs) as (Hifin & Hisum).
  apply positive_inv in Hinv. destruct Hinv as (I & HI & HIpos).
  unfold investmentsAddUp in Hadd.
  rewrite sumOf_fin in Hadd
    by (eapply Forall_impl; [|exact Hinvs]; intros; now apply positive_finite).
  rewrite HI in Hadd. simpl in Hadd.
  unfold balanced, ExitScenario.processRound. simpl.
  rewrite Ht, Hpps, Hssum, HI.
  rewrite (div_fin _ (Qpos_neq Hq)). simpl.
  eexists. split; [reflexivity|].
  assert (HN : 0 < I / (e / t)) by now apply Qdiv_pos.
  split; [lra|]. split.
  - repeat (apply Forall_app; split); assumption.
  - rewrite !Qsum_app, Hisum, Hadd. lra.
Qed.

Lemma balanced_run (u : Q) (rounds : list PricingRoundData) (os : ExitScenario.OwnershipStructure) :
  balanced u os -> Forall (validRound safes) rounds -> Forall investmentsAddUp rounds ->
  balanced u (fold_left (ExitScenario.processRound safes) rounds os).
Proof.
  revert os. induction rounds as [|r rounds IH]; intros os Hb Hv Ha; simpl.
  - exact Hb.
  - inversion Hv; inversion Ha; subst. apply IH; try assumption.
    now apply balanced_step.
Qed.

End ExitStep.

Lemma balanced_init (c : Company) :
  validCompany c ->
  balanced (toQ (unallocated c)) (ExitScenario.init c).
Proof.
  intros (Ht & Hf). apply positive_inv in Ht. destruct Ht as (t & Ht & Htpos).
  apply finite_inv in Hf.
  unfold balanced, unallocated. simpl. rewrite Ht, Hf. simpl.
  exists t. repeat split; try assumption.
  - constructor; [|constructor]. reflexivity.
  - unfold Qsum. simpl. ring.
Qed.

(** ** The ownership view and the exit view *)

Lemma find_name_none (n : string) (l : list OwnershipTable.OwnershipBreakdown) :
  ~ In n (names l) ->
  find (fun x => (OwnershipTable.stakeholder x =? n)%string) l = None.
Proof.
  induction l as [|x l IH]; intros H; simpl.
  - reflexivity.
  - destruct (String.eqb_spec (OwnershipTable.stakeholder x) n) as [E|E].
    + exfalso. apply H. left. exact E.
    + apply IH. intros Hin. apply H. right. exact Hin.
Qed.

(** When every note is flagged converted and no name is taken, the inner
    loop pushes one entry per note. *)
Lemma convert_all (r : PricingRoundData) (t : num) (safes : list SafeInvestment) :
  forall (acc : num) (st : list OwnershipTable.OwnershipBreakdown),
  Forall (fun s => converted s = true) safes ->
  NoDup (map investorName safes) ->
  (forall n, In n (map investorName safes) -> ~ In n (names st)) ->
  fold_left (OwnershipTable.convertSafe r t) safes (acc, st)
  = (fold_left (fun sum x => (sum + convertedShares r t x)%js) safes acc,
     st ++ map (safeBreakdown r t) safes).
Proof.
  induction safes as [|s safes IH]; intros acc st Hc Hnd Hfree; simpl.
  - now rewrite app_nil_r.
  - inversion Hc as [|? ? Hs Hc']; subst.
    inversion Hnd as [|? ? Hnotin Hnd']; subst.
    rewrite Hs. simpl.
    rewrite find_name_none by (apply Hfree; now left).
    rewrite IH; try assumption.
    + rewrite <- app_assoc. reflexivity.
    + intros n Hn Hin. unfold names in Hin. rewrite map_app in Hin.
      apply in_app_or in Hin. destruct Hin as [Hin|Hin].
      * apply (Hfree n); [now right | exact Hin].
      * simpl in Hin. destruct Hin as [<-|[]]. contradiction.
Qed.

Lemma toExit_safeBreakdown (r : PricingRoundData) (t : num) (safes : list SafeInvestment) :
  map toExit (map (safeBreakdown r t) safes) = map (ExitScenario.safeEntry r t) safes.
Proof. rewrite map_map. reflexivity. Qed.

Lemma toExit_investorEntry (q : num) (l : list NewInvestor) :
  map toExit (map (OwnershipTable.investorEntry q) l) = map (ExitScenario.investorEntry q) l.
Proof. rewrite map_map. reflexivity. Qed.

Lemma agree_step (safes : list SafeInvestment) (st : OwnershipTable.Loop)
    (r : PricingRoundData) :
  Forall (fun s => converted s = true) safes ->
  NoDup (map investorName safes) ->
  (forall n, In n (map investorName safes) ->
             ~ In n (names (OwnershipTable.cur_stakeholders st))) ->
  toExitState (OwnershipTable.processRound safes st r)
  = ExitScenario.processRound safes (toExitState st) r.
Proof.
  intros Hc Hnd Hfree.
  unfold OwnershipTable.processRound, ExitScenario.processRound, toExitState.
  rewrite (convert_all r _ zero _ Hc Hnd Hfree). simpl.
  rewrite !map_app, toExit_safeBreakdown, toExit_investorEntry.
  reflexivity.
Qed.

Lemma agree_init (c : Company) :
  toExitState (OwnershipTable.init c) = ExitScenario.init c.
Proof. reflexivity. Qed.

(** With no SAFE note, or with one round and notes that are all flagged
    converted under distinct names other than "Founders", the two views run
    the same computation. *)
Lemma agree_run (c : Company) (safes : list SafeInvestment) (rounds : list PricingRoundData) :
  Forall (fun s => converted s = true) safes ->
  NoDup (map investorName safes) ->
  ~ In "Founders" (map investorName safes) ->
  safes = [] \/ (List.length rounds <= 1)%nat ->
  toExitState (OwnershipTable.runRounds c safes rounds)
  = ExitScenario.runRounds c safes rounds.
Proof.
  intros Hc Hnd Hf [->|Hlen].
  - unfold OwnershipTable.runRounds, ExitScenario.runRounds.
    rewrite <- agree_init. generalize (OwnershipTable.init c).
    induction rounds as [|r rounds IH]; intros st; simpl.
    + reflexivity.
    + rewrite IH. f_equal. apply agree_step; [constructor|constructor|].
      intros n [].
  - destruct rounds as [|r [|r' rounds]]; simpl in Hlen; try lia.
    + reflexivity.
    + unfold OwnershipTable.runRounds, ExitScenario.runRounds. simpl.
      rewrite <- agree_init. apply agree_step; try assumption.
      intros n Hn [E|[]]. simpl in E. subst n. contradiction.
Qed.


Lemma filter_nonfounder (l : list ExitScenario.Stakeholder) :
  Forall (fun x => ExitScenario.type x <> founder) l ->
  filter (fun x => negb (StakeholderType_eqb (ExitScenario.type x) founder)) l = l.
Proof.
  induction 1 as [|x l Hx _ IH]; simpl.
  - reflexivity.
  - destruct (ExitScenario.type x); simpl; [contradiction| |]; now rewrite IH.
Qed.

(** ** The final sort of the ownership view *)

Lemma insert_perm (x : OwnershipTable.OwnershipBreakdown) (l : list OwnershipTable.OwnershipBreakdown) :
  Permutation (OwnershipTable.insert x l) (x :: l).
Proof.
  induction l as [|y l IH]; simpl.
  - reflexivity.
  - destruct (OwnershipTable.compareFn x y > zero)%js.
    + rewrite IH. apply perm_swap.
    + reflexivity.
Qed.

Lemma sort_perm (l : list OwnershipTable.OwnershipBreakdown) :
  Permutation (OwnershipTable.sort l) l.
Proof.
  induction l as [|x l IH]; simpl.
  - reflexivity.
  - rewrite insert_perm. now constructor.
Qed.

Lemma withOwnership_shares (t : num) (l : list OwnershipTable.OwnershipBreakdown) :
  map toExit (map (OwnershipTable.setOwnership t) l) = map toExit l.
Proof. rewrite map_map. reflexivity. Qed.

(** The snapshot of the ownership view holds the entries of its loop, in
    another order. *)
Lemma snapshot_perm (c : Company) (safes : list SafeInvestment) (rounds : list PricingRoundData) :
  Permutation
    (map toExit (OwnershipTable.stakeholders (OwnershipTable.ownershipData c safes rounds)))
    (map toExit (OwnershipTable.cur_stakeholders (OwnershipTable.runRounds c safes rounds))).
Proof.
  unfold OwnershipTable.ownershipData, OwnershipTable.withOwnership. simpl.
  etransitivity; [apply Permutation_map, sort_perm|].
  now rewrite withOwnership_shares.
Qed.

(** ** The stakeholders' shares and the total *)

Lemma exit_shares_add_up (c : Company) (safes : list SafeInvestment)
    (rounds : list PricingRoundData) :
  validCompany c -> Forall validSafe safes ->
  Forall (validRound safes) rounds -> Forall investmentsAddUp rounds ->
  balanced (toQ (unallocated c)) (ExitScenario.runRounds c safes rounds).
Proof.
  intros Hc Hs Hr Ha. unfold ExitScenario.runRounds.
  apply balanced_run; try assumption. now apply balanced_init.
Qed.

Lemma unallocated_fin (c : Company) :
  validCompany c -> unallocated c = Fin (toQ (unallocated c)).
Proof.
  intros (Ht & Hf). apply finite_inv. apply positive_finite in Ht.
  unfold unallocated. rewrite (finite_inv Ht), (finite_inv Hf). reflexivity.
Qed.

Lemma balanced_sum (u : Q) (os : ExitScenario.OwnershipStructure) :
  balanced u os ->
  (sumOf ExitScenario.shares (ExitScenario.stakeholders os) + Fin u)%js
  =~= ExitScenario.totalShares os.
Proof.
  intros (t & Ht & _ & Hfin & Hsum).
  rewrite (sumOf_fin _ Hfin), Ht. simpl. exact Hsum.
Qed.

(** The sum of the shares of a list of ownership entries is the sum over the
    same entries read as exit-view entries, in any order. *)
Lemma sumOf_shares_perm (l : list OwnershipTable.OwnershipBreakdown)
    (l' : list ExitScenario.Stakeholder) :
  Permutation (map toExit l) l' ->
  Forall (fun x => finite (ExitScenario.shares x)) l' ->
  exists a,
    sumOf OwnershipTable.shares l = Fin a /\
    a == Qsum (fun x => toQ (ExitScenario.shares x)) l' 0.
Proof.
  intros Hperm Hfin.
  assert (Hfin' : Forall (fun x => finite (OwnershipTable.shares x)) l).
  { apply Permutation_sym in Hperm.
    pose proof (Permutation_Forall Hperm Hfin) as H.
    rewrite Forall_map in H. exact H. }
  eexists. split; [apply sumOf_fin; exact Hfin'|].
  rewrite <- (Qsum_perm _ Hperm), Qsum_map. reflexivity.
Qed.

(** C3 (amended).  On valid inputs in which every round's [investment] is
    the sum of its investors' amounts, the stakeholders' shares together
    with the company's unallocated shares ([totalShares - foundersShares])
    add up to the total of shares outstanding: in the snapshot of the exit
    view after any rounds, and in the snapshot of the ownership view when
    there is no SAFE note or at most one round with every note flagged
    converted under distinct names other than "Founders". *)
Theorem C3_shares_add_up_with_unallocated
    (c : Company) (safes : list SafeInvestment) (rounds : list PricingRoundData) :
  validCompany c -> Forall validSafe safes ->
  Forall (validRound safes) rounds -> Forall investmentsAddUp rounds ->
  (forall os,
     ExitScenario.ownershipStructure c safes rounds = Some os ->
     (sumOf ExitScenario.shares (ExitScenario.stakeholders os) + unallocated c)%js
     =~= ExitScenario.totalShares os) /\
  (Forall (fun s => converted s = true) safes ->
   NoDup (map investorName safes) ->
   ~ In "Founders" (map investorName safes) ->
   safes = [] \/ (List.length rounds <= 1)%nat ->
   let data := OwnershipTable.ownershipData c safes rounds in
   (sumOf OwnershipTable.shares (OwnershipTable.stakeholders data) + unallocated c)%js
   =~= OwnershipTable.totalShares data).
Proof.
  intros Hc Hs Hr Ha.
  pose proof (exit_shares_add_up Hc Hs Hr Ha) as Hb.
  split.
  - intros os Hos. unfold ExitScenario.ownershipStructure in Hos.
    destruct rounds; [discriminate|]. injection Hos as <-.
    rewrite (unallocated_fin Hc). now apply balanced_sum.
  - intros Hconv Hnd Hf Hone data.
    pose proof (@agree_run c safes rounds Hconv Hnd Hf Hone) as Hagree.
    rewrite <- Hagree in Hb. destruct Hb as (t & Ht & _ & Hfin & Hsum).
    simpl in Ht, Hfin, Hsum.
    destruct (@sumOf_shares_perm _ _ (snapshot_perm c safes rounds) Hfin) as (a & Ha' & Hq).
    subst data. rewrite Ha', (unallocated_fin Hc).
    change (OwnershipTable.totalShares (OwnershipTable.ownershipData c safes rounds))
      with (OwnershipTable.cur_totalShares (OwnershipTable.runRounds c safes rounds)).
    rewrite Ht. simpl. rewrite Hq. exact Hsum.
Qed.

(** C3, counterexample.  In the scenario of the specification the
    stakeholders hold 11,080,645.16
    shares of the 13,080,645.16 outstanding: the sum is not the total within
    a relative tolerance of 1e-6, in either view. *)
Lemma C3_counterexample :
  let safes := safeRounds Scenario.state in
  let rounds := pricingRounds Scenario.state in
  let data := OwnershipTable.ownershipData Scenario.acme safes rounds in
  let os := ExitScenario.runRounds Scenario.acme safes rounds in
  ExitScenario.ownershipStructure Scenario.acme safes rounds = Some os /\
  ~ within (1 # 1000000)
      (sumOf OwnershipTable.shares (OwnershipTable.stakeholders data))
      (OwnershipTable.totalShares data) /\
  ~ within (1 # 1000000)
      (sumOf ExitScenario.shares (ExitScenario.stakeholders os))
      (ExitScenario.totalShares os).
Proof.
  vm_compute. repeat split; intros H; apply H; reflexivity.
Qed.

Ltac valid_input :=
  repeat match goal with
         | |- Forall _ [] => constructor
         | |- Forall _ (_ :: _) => constructor
         | |- Forall _ _ => progress cbn
         | |- NoDup [] => constructor
         | |- NoDup (_ :: _) => constructor
         | |- NoDup _ => progress cbn
         | |- ~ In _ [] => intros []
         | |- _ /\ _ => split
         | |- exists _, _ = Fin _ /\ _ => eexists; split; [reflexivity|]
         | |- validSafe _ => unfold validSafe; simpl
         | |- validRound _ _ => unfold validRound
         | |- validCompany _ => unfold validCompany
         | |- investmentsAddUp _ => unfold investmentsAddUp
         | |- True => exact I
         | |- _ = true => reflexivity
         | |- finite _ => reflexivity
         | |- positive _ => vm_compute; reflexivity
         | |- _ =~= _ => vm_compute; reflexivity
         | |- (_ < _)%Q => vm_compute; reflexivity
         | |- (_ <= _)%Q => vm_compute; discriminate
         | |- ~ In _ _ => simpl; intros [?|?]; [discriminate|contradiction]
         end.

Lemma C3_shares_add_up_witness :
  let os := ExitScenario.runRounds Scenario.acme [Scenario.note] [Scenario.round] in
  let data := OwnershipTable.ownershipData Scenario.acme [Scenario.note] [Scenario.round] in
  (sumOf ExitScenario.shares (ExitScenario.stakeholders os) + unallocated Scenario.acme)%js
  =~= ExitScenario.totalShares os /\
  (sumOf OwnershipTable.shares (OwnershipTable.stakeholders data) + unallocated Scenario.acme)%js
  =~= OwnershipTable.totalShares data.
Proof.
  destruct (@C3_shares_add_up_with_unallocated Scenario.acme [Scenario.note] [Scenario.round])
    as [Hexit Hown]; [valid_input ..|].
  split.
  - apply Hexit. reflexivity.
  - apply Hown; [valid_input .. | right; simpl; lia].
Defined.

(** ** The exit waterfall *)







(** ** SAFE notes across rounds *)

(** In the exit view every processed round pushes an entry for every note. *)
Lemma exit_entries_per_round (c : Company) (safes : list SafeInvestment)
    (rounds : list PricingRoundData) :
  List.length
    (filter (fun x => StakeholderType_eqb (ExitScenario.type x) safe)
            (ExitScenario.stakeholders (ExitScenario.runRounds c safes rounds)))
  = (List.length rounds * List.length safes)%nat.
Proof.
  unfold ExitScenario.runRounds.
  assert (Hs : forall r t, List.length
                (filter (fun x => StakeholderType_eqb (ExitScenario.type x) safe)
                        (map (ExitScenario.safeEntry r t) safes)) = List.length safes).
  { intros r t. induction safes as [|s l IHl]; simpl; [reflexivity|]. now rewrite IHl. }
  assert (Hi : forall q l, List.length
                (filter (fun x => StakeholderType_eqb (ExitScenario.type x) safe)
                        (map (ExitScenario.investorEntry q) l)) = 0%nat).
  { intros q l. induction l as [|i l IHl]; simpl; [reflexivity|]. exact IHl. }
  assert (H : forall os,
             List.length
               (filter (fun x => StakeholderType_eqb (ExitScenario.type x) safe)
                       (ExitScenario.stakeholders
                          (fold_left (ExitScenario.processRound safes) rounds os)))
             = (List.length
                  (filter (fun x => StakeholderType_eqb (ExitScenario.type x) safe)
                          (ExitScenario.stakeholders os))
                + List.length rounds * List.length safes)%nat).
  { induction rounds as [|r rounds IH]; intros os; simpl.
    - lia.
    - rewrite IH. unfold ExitScenario.processRound. simpl.
      rewrite !filter_app, !length_app, Hs, Hi. lia. }
  rewrite H. reflexivity.
Qed.

(** C2 (the code at the failing input).  One SAFE note and two rounds, added
    through the page handlers: the exit view holds two entries for the one
    note, and the ownership view adds the note's converted shares to the
    total a second time when it processes the second round. *)
Theorem C2_safe_converts_again_at_the_second_round :
  let safes := safeRounds Scenario.stateTwoRounds in
  let rounds := pricingRounds Scenario.stateTwoRounds in
  let os := ExitScenario.runRounds Scenario.acme safes rounds in
  let t1 := OwnershipTable.totalShares
              (OwnershipTable.ownershipData Scenario.acme safes [Scenario.round]) in
  let t2 := OwnershipTable.totalShares
              (OwnershipTable.ownershipData Scenario.acme safes rounds) in
  safes = [Scenario.note] /\
  rounds = [Scenario.round; Scenario.roundB] /\
  map ExitScenario.name (ExitScenario.stakeholders os)
  = ["Founders"; "Angel"; "VC"; "Angel"; "Growth"] /\
  positive (convertedShares Scenario.roundB t1 Scenario.note) /\
  t2 =~= (t1 + (convertedShares Scenario.roundB t1 Scenario.note
                + newShares safes Scenario.roundB t1))%js /\
  ExitScenario.totalShares os =~= t2.
Proof. by_computation. Qed.

(** C6 (the code at the failing input).  A SAFE note added after the round
    is not flagged converted: the ownership view skips it, the exit view
    converts it, and the two totals differ.  With two rounds the exit view
    lists the first note twice and the ownership view once. *)
Theorem C6_views_disagree :
  let safes := safeRounds Scenario.stateLateSafe in
  let rounds := pricingRounds Scenario.stateLateSafe in
  let data := OwnershipTable.ownershipData Scenario.acme safes rounds in
  let safes2 := safeRounds Scenario.stateTwoRounds in
  let rounds2 := pricingRounds Scenario.stateTwoRounds in
  safes = [Scenario.note; Scenario.lateNote] /\
  rounds = [Scenario.round] /\
  (exists os,
     ExitScenario.ownershipStructure Scenario.acme safes rounds = Some os /\
     map ExitScenario.name (ExitScenario.stakeholders os)
     = ["Founders"; "Angel"; "Late"; "VC"] /\
     map OwnershipTable.stakeholder
         (OwnershipTable.cur_stakeholders (OwnershipTable.runRounds Scenario.acme safes rounds))
     = ["Founders"; "Angel"; "VC"] /\
     ~ OwnershipTable.totalShares data =~= ExitScenario.totalShares os) /\
  (exists os2,
     ExitScenario.ownershipStructure Scenario.acme safes2 rounds2 = Some os2 /\
     map ExitScenario.name (ExitScenario.stakeholders os2)
     = ["Founders"; "Angel"; "VC"; "Angel"; "Growth"] /\
     map OwnershipTable.stakeholder
         (OwnershipTable.cur_stakeholders (OwnershipTable.runRounds Scenario.acme safes2 rounds2))
     = ["Founders"; "Angel"; "VC"; "Growth"]).
Proof. by_computation. Qed.

(** ** A round whose pre-money valuation the SAFE notes reach *)






(** ** The conversion price *)

Lemma Qdiv_le_iff (a c t : Q) : 0 < t -> (a / t <= c / t <-> a <= c).
Proof.
  intros Ht. split; intros H.
  - apply Qmult_le_r with (z := / t); [now apply Qinv_lt_0_compat|exact H].
  - apply Qmult_le_r; [now apply Qinv_lt_0_compat|exact H].
Qed.

Lemma Qle_bool_false (x y : Q) : Qle_bool x y = false -> y < x.
Proof.
  intros H. destruct (Qlt_le_dec y x) as [Hlt|Hle]; [assumption|].
  apply Qle_bool_iff in Hle. congruence.
Qed.

(** C7 (amended).  At a positive number of shares outstanding, with a finite
    pre-money valuation and discount and a cap that is absent or that the
    code takes as a cap (a number other than 0 and [NaN]), a SAFE note
    converts, in exact arithmetic, at the price per share
    [min(discountPrice, capPrice)], with
    [discountPrice = preMoneyValuation / totalSharesBefore * (1 - discount / 100)]
    and [capPrice = valuationCap / totalSharesBefore], or infinity without a
    cap.  With no discount and no cap this is the round's pre-money price
    per share; when the cap price is below the discount price it is the cap
    price. *)
Theorem C7_conversion_price_per_share
    (round : PricingRoundData) (s : SafeInvestment) (p d t : Q) :
  preMoneyValuation round = Fin p ->
  discount s = Fin d ->
  0 < t ->
  match valuationCap s with
  | Some c => truthy c = true
  | None => True
  end ->
  sharePrice round (Fin t) s =~= Spec.conversionPricePerShare round (Fin t) s /\
  (d == 0 -> valuationCap s = None ->
   sharePrice round (Fin t) s =~= (preMoneyValuation round / Fin t)%js) /\
  ((Spec.discountPrice round (Fin t) s > Spec.capPrice (Fin t) s)%js = true ->
   sharePrice round (Fin t) s =~= Spec.capPrice (Fin t) s).
Proof.
  intros Hp Hd Ht Hcap.
  assert (Ht0 : ~ t == 0) by now apply Qpos_neq.
  assert (Htneg : isNeg t = false).
  { unfold isNeg. apply negb_false_iff, Qle_bool_iff. now apply Qlt_le_weak. }
  unfold sharePrice, conversionPrice, discountPrice, capPrice.
  unfold Spec.conversionPricePerShare, Spec.discountPrice, Spec.capPrice.
  rewrite Hp, Hd, one_minus_percent, (div_fin _ Ht0).
  destruct (valuationCap s) as [[c'| | |]|]; try discriminate Hcap.
  - cbn [orElse]. rewrite Hcap.
    rewrite (div_fin _ Ht0). cbn [jmul Math_min jgt].
    destruct (Qle_bool (p * (1 + - (d / 100))) c') eqn:E1;
      destruct (Qle_bool (p / t * (1 + - (d / 100))) (c' / t)) eqn:E2;
      rewrite (div_fin _ Ht0); cbn [jeq negb].
    + split; [field; exact Ht0|]. split; [discriminate|discriminate].
    + exfalso. apply Qle_bool_iff in E1. apply Qle_bool_false in E2.
      apply (proj2 (Qdiv_le_iff _ _ Ht)) in E1.
      assert (H : p / t * (1 + - (d / 100)) == p * (1 + - (d / 100)) / t)
        by (field; exact Ht0).
      rewrite H in E2. exact (Qlt_not_le _ _ E2 E1).
    + exfalso. apply Qle_bool_iff in E2. apply Qle_bool_false in E1.
      assert (H : p / t * (1 + - (d / 100)) == p * (1 + - (d / 100)) / t)
        by (field; exact Ht0).
      rewrite H in E2. apply (proj1 (Qdiv_le_iff _ _ Ht)) in E2.
      exact (Qlt_not_le _ _ E1 E2).
    + split; [reflexivity|]. split; [discriminate|]. intros _. reflexivity.
  - assert (Hinf : (PInf / Fin t)%js = PInf) by (cbn [jdiv]; now rewrite Htneg).
    rewrite Hinf. cbn [orElse truthy jmul Math_min jgt].
    rewrite (div_fin _ Ht0). cbn [jeq].
    split; [field; exact Ht0|]. split; discriminate.
  - assert (Hinf : (NInf / Fin t)%js = NInf) by (cbn [jdiv]; now rewrite Htneg).
    rewrite Hinf. cbn [orElse truthy jmul Math_min jgt]. rewrite Hinf.
    cbn [jeq]. split; [exact I|]. split; [discriminate|]. intros _. exact I.
  - cbn [orElse jmul Math_min Infinity jgt]. rewrite (div_fin _ Ht0). cbn [jeq].
    split; [field; exact Ht0|]. split; [|discriminate].
    intros Hd0 _. rewrite Hd0. field. exact Ht0.
Qed.

(** C7, counterexample.  A cap of 0 typed into the SAFE form is stored as the
    number 0 and taken as no cap: at the round of the scenario the note
    converts at the discount price 0.64, where
    [min(discountPrice, capPrice)] is [0 / 10,000,000 = 0].  And at a
    negative number of shares the division turns the minimum into the
    maximum: the capped note of the scenario converts at -0.5, where the
    formula gives -0.64. *)
Lemma C7_counterexample :
  let zeroCap := noteOf "s1" (SafeRound.handleSubmit Scenario.zeroCapForm) true in
  (valuationCap zeroCap = Some (Fin 0) /\
   sharePrice Scenario.round (Fin 10000000) zeroCap =~= Fin 0.64 /\
   Spec.conversionPricePerShare Scenario.round (Fin 10000000) zeroCap =~= Fin 0 /\
   ~ sharePrice Scenario.round (Fin 10000000) zeroCap
     =~= Spec.conversionPricePerShare Scenario.round (Fin 10000000) zeroCap) /\
  (sharePrice Scenario.round (Fin (-10000000)) Scenario.note =~= Fin (-0.5) /\
   Spec.conversionPricePerShare Scenario.round (Fin (-10000000)) Scenario.note
   =~= Fin (-0.64) /\
   ~ sharePrice Scenario.round (Fin (-10000000)) Scenario.note
     =~= Spec.conversionPricePerShare Scenario.round (Fin (-10000000)) Scenario.note).
Proof.
  vm_compute. repeat split; discriminate.
Qed.

Lemma C7_conversion_price_witness :
  (sharePrice Scenario.round (Fin 10000000) Scenario.note
   =~= Spec.conversionPricePerShare Scenario.round (Fin 10000000) Scenario.note /\
   sharePrice Scenario.round (Fin 10000000) Scenario.note
   =~= Spec.capPrice (Fin 10000000) Scenario.note) /\
  sharePrice Scenario.round (Fin 10000000) Scenario.plainNote
  =~= (preMoneyValuation Scenario.round / Fin 10000000)%js.
Proof.
  split.
  - destruct (@C7_conversion_price_per_share
                Scenario.round Scenario.note 8000000 20 10000000
                eq_refl eq_refl eq_refl eq_refl)
      as (Hmin & _ & Hcap).
    split; [exact Hmin | apply Hcap; reflexivity].
  - destruct (@C7_conversion_price_per_share
                Scenario.round Scenario.plainNote 8000000 0 10000000
                eq_refl eq_refl eq_refl I)
      as (_ & Hraw & _).
    apply Hraw; reflexivity.
Defined.

(** ** Multiple and ROI without invested capital *)

(** C8 (amended).  In every exit projection the founders' ROI is the number
    0, and a stakeholder other than the founders whose invested capital is
    not above 0 has the ROI 0 and the multiple 0: numbers, not "undefined". *)
Theorem C8_roi_and_multiple_are_zero
    (exitValuations : list num) (os : ExitScenario.OwnershipStructure)
    (calc : ExitScenario.ExitCalculation) (ip : ExitScenario.InvestorPayout) :
  In calc (ExitScenario.exitCalculations exitValuations (Some os)) ->
  ExitScenario.founderROI calc = zero /\
  (In ip (ExitScenario.investorPayouts calc) ->
   (ExitScenario.ip_investment ip > zero)%js = false ->
   ExitScenario.roi ip = zero /\ ExitScenario.multiple ip = zero).
Proof.
  intros Hcalc. simpl in Hcalc. apply in_map_iff in Hcalc.
  destruct Hcalc as (v & <- & _). split; [reflexivity|].
  intros Hip Hgt. simpl in Hip. apply in_map_iff in Hip.
  destruct Hip as (s & <- & _). simpl in Hgt |- *.
  rewrite Hgt. split; reflexivity.
Qed.

(** C8, counterexample.  With one more investor, who pays nothing, the exit
    projection reports the founders' ROI as 0; an investor who paid nothing gets the ROI 0 and the
    multiple 0. *)
Lemma C8_counterexample :
  let os := ExitScenario.runRounds Scenario.acme [Scenario.note] [Scenario.roundWithAdvisor] in
  exists calc advisor,
    ExitScenario.exitCalculations ExitScenario.defaultExitValuations
      (ExitScenario.ownershipStructure Scenario.acme [Scenario.note] [Scenario.roundWithAdvisor])
    = calc :: map (ExitScenario.exitCalculation os) [Fin 50000000; Fin 100000000; Fin 500000000] /\
    ExitScenario.founderROI calc = Fin 0 /\
    nth_error (ExitScenario.investorPayouts calc) 2 = Some advisor /\
    ExitScenario.ip_name advisor = "Advisor" /\
    ExitScenario.ip_investment advisor = Fin 0 /\
    ExitScenario.roi advisor = Fin 0 /\
    ExitScenario.multiple advisor = Fin 0.
Proof.
  do 2 eexists. split; [reflexivity|]. repeat split.
Qed.

Lemma C8_roi_and_multiple_witness :
  let os := ExitScenario.runRounds Scenario.acme [Scenario.note] [Scenario.roundWithAdvisor] in
  let calc := ExitScenario.exitCalculation os (Fin 10000000) in
  let advisor :=
    ExitScenario.investorPayout (Fin 10000000 / ExitScenario.totalShares os)%js
      (ExitScenario.investorEntry
         (pricePerShare [Scenario.note] Scenario.roundWithAdvisor (Fin 10000000))
         {| investor_name := "Advisor"; investor_investment := Fin 0 |}) in
  In calc (ExitScenario.exitCalculations ExitScenario.defaultExitValuations (Some os)) /\
  In advisor (ExitScenario.investorPayouts calc) /\
  ExitScenario.founderROI calc = zero /\
  ExitScenario.roi advisor = zero /\ ExitScenario.multiple advisor = zero.
Proof.
  intros os calc advisor.
  assert (Hcalc : In calc (ExitScenario.exitCalculations
                             ExitScenario.defaultExitValuations (Some os)))
    by (left; reflexivity).
  assert (Hadv : In advisor (ExitScenario.investorPayouts calc))
    by (right; right; left; reflexivity).
  destruct (@C8_roi_and_multiple_are_zero
              ExitScenario.defaultExitValuations os calc advisor Hcalc) as [Hf Hip].
  destruct (Hip Hadv eq_refl) as [Hroi Hmul].
  repeat split; assumption.
Defined.

(** ** The company form *)

Lemma takeDigits_numeral (d : Decimal.uint) :
  takeDigits 10 (list_ascii_of_string (NilEmpty.string_of_uint d)) = (digitsOf d, []).
Proof.
  induction d; simpl; try rewrite IHd; reflexivity.
Qed.

Lemma valueOf_acc (d : Decimal.uint) (acc : BinNums.positive) :
  fold_left (fun a x => (a * 10 + x)%Z) (digitsOf d) (Z.pos acc)
  = Z.pos (Pos.of_uint_acc d acc).
Proof.
  revert acc.
  induction d; intros acc; cbn [digitsOf fold_left Pos.of_uint_acc];
    try reflexivity; rewrite <- IHd; f_equal; lia.
Qed.

Lemma valueOf_numeral (d : Decimal.uint) :
  valueOf 10 (digitsOf d) = Z.of_uint d.
Proof.
  unfold valueOf, Z.of_uint.
  induction d; cbn [digitsOf fold_left Pos.of_uint Z.of_N];
    try reflexivity; try exact IHd; apply valueOf_acc.
Qed.

Lemma numeral_start (d : Decimal.uint) :
  d <> Decimal.Nil ->
  let l := list_ascii_of_string (NilEmpty.string_of_uint d) in
  trimStart l = l /\ takeSign l = (false, l) /\ takeRadix l = (10%Z, l) /\
  startsWith (list_ascii_of_string "Infinity") l = false /\
  digitsOf d <> [].
Proof.
  intros Hd. destruct d; try congruence; simpl;
    repeat split; try reflexivity; try discriminate.
  destruct d; reflexivity.
Qed.

Lemma parseInt_numeral (d : Decimal.uint) :
  d <> Decimal.Nil ->
  parseInt (NilEmpty.string_of_uint d) = Fin (inject_Z (Z.of_uint d)) /\
  parseInt (String "-" (NilEmpty.string_of_uint d)) = Fin (- inject_Z (Z.of_uint d)).
Proof.
  intros Hd. destruct (numeral_start Hd) as (Htrim & Hsign & Hradix & _ & Hne).
  assert (Hw : isWhiteSpace "-"%char = false) by reflexivity.
  unfold parseInt. cbn [list_ascii_of_string trimStart]. rewrite Hw.
  cbn [takeSign]. rewrite Htrim, Hsign, Hradix, takeDigits_numeral.
  rewrite <- valueOf_numeral.
  destruct (digitsOf d); [congruence|]. split; reflexivity.
Qed.

Lemma parseFloat_numeral (d : Decimal.uint) :
  d <> Decimal.Nil ->
  parseFloat (NilEmpty.string_of_uint d) = Fin (inject_Z (Z.of_uint d)) /\
  parseFloat (String "-" (NilEmpty.string_of_uint d)) = Fin (- inject_Z (Z.of_uint d)).
Proof.
  intros Hd. destruct (numeral_start Hd) as (Htrim & Hsign & _ & Hinf & Hne).
  assert (Hw : isWhiteSpace "-"%char = false) by reflexivity.
  unfold parseFloat. cbn [list_ascii_of_string trimStart] in Hinf |- *. rewrite Hw.
  cbn [takeSign]. rewrite Htrim, Hsign, Hinf, takeDigits_numeral.
  rewrite <- valueOf_numeral, app_nil_r.
  assert (Hscale : forall m, scale m (takeExponent [] - Z.of_nat (@List.length Z [])) = inject_Z m).
  { intros m. unfold scale. simpl. now rewrite Z.mul_1_r. }
  rewrite Hscale.
  destruct (digitsOf d); [congruence|]. split; reflexivity.
Qed.

Lemma numeral_of_Z (z : Z) :
  exists d,
    d <> Decimal.Nil /\ Z.of_uint d = Z.abs z /\
    showZ z = (if (z <? 0)%Z then String "-" (NilEmpty.string_of_uint d)
               else NilEmpty.string_of_uint d).
Proof.
  destruct z as [|p|p].
  - exists (Decimal.D0 Decimal.Nil). repeat split. discriminate.
  - exists (Pos.to_uint p). split; [apply Unsigned.to_uint_nonnil|]. split.
    + unfold Z.of_uint. now rewrite Unsigned.of_to.
    + unfold showZ. simpl.
      pose proof (Unsigned.to_uint_nonnil p) as H.
      destruct (Pos.to_uint p); [congruence| reflexivity ..].
  - exists (Pos.to_uint p). split; [apply Unsigned.to_uint_nonnil|]. split.
    + unfold Z.of_uint. now rewrite Unsigned.of_to.
    + unfold showZ. simpl.
      pose proof (Unsigned.to_uint_nonnil p) as H.
      destruct (Pos.to_uint p); [congruence| reflexivity ..].
Qed.

(** A form field holding the numeral of an integer parses to that integer. *)
Lemma parse_showZ (z : Z) :
  parseInt (showZ z) = Fin (inject_Z z) /\ parseFloat (showZ z) = Fin (inject_Z z).
Proof.
  destruct (numeral_of_Z z) as (d & Hd & Hval & ->).
  destruct (parseInt_numeral Hd) as [Hi Hi'].
  destruct (parseFloat_numeral Hd) as [Hf Hf'].
  destruct (Z.ltb_spec z 0) as [Hneg|Hpos].
  - rewrite Hi', Hf', Hval.
    change (- inject_Z (Z.abs z)) with (inject_Z (- Z.abs z)).
    replace (- Z.abs z)%Z with z by lia. split; reflexivity.
  - rewrite Hi, Hf, Hval. replace (Z.abs z) with z by lia. split; reflexivity.
Qed.

(** C9 (amended).  The company form validates nothing: whatever integers a
    [number] holds exactly (absolute value at most [2^53 - 1]) are typed as
    founder shares, total shares and initial valuation (founders above the
    total, zero and negative values included), [handleSubmit] builds the
    company with exactly these numbers and the page stores it. *)
Theorem C9_handleSubmit_accepts_any_numbers
    (n : string) (founders total valuation : Z) (page : State) :
  isSafeInteger founders -> isSafeInteger total -> isSafeInteger valuation ->
  let form :=
    {| CompanySetup.name := n;
       CompanySetup.foundersShares := showZ founders;
       CompanySetup.totalShares := showZ total;
       CompanySetup.initialValuation := showZ valuation |} in
  CompanySetup.handleSubmit form
  = {| Index.name := n;
       Index.foundersShares := Fin (inject_Z founders);
       Index.totalShares := Fin (inject_Z total);
       Index.initialValuation := Fin (inject_Z valuation) |} /\
  company (handleCompanySetup (CompanySetup.handleSubmit form) page)
  = Some (CompanySetup.handleSubmit form).
Proof.
  intros _ _ _ form. split; [|reflexivity].
  unfold CompanySetup.handleSubmit, form. simpl.
  destruct (parse_showZ founders) as [-> _].
  destruct (parse_showZ total) as [-> _].
  destruct (parse_showZ valuation) as [_ ->].
  reflexivity.
Qed.

(** C9, counterexample.  Founders holding 20 shares of 10 and a valuation of
    -5 are accepted. *)
Lemma C9_counterexample :
  let c := CompanySetup.handleSubmit Scenario.badForm in
  company (handleCompanySetup c initialState) = Some c /\
  foundersShares c = Fin 20 /\
  Index.totalShares c = Fin 10 /\
  initialValuation c = Fin (-5) /\
  (foundersShares c > Index.totalShares c)%js = true /\
  (initialValuation c > zero)%js = false.
Proof. repeat split. Qed.

Lemma C9_handleSubmit_witness :
  let form :=
    {| CompanySetup.name := "Acme";
       CompanySetup.foundersShares := showZ 9007199254740991;
       CompanySetup.totalShares := showZ 0;
       CompanySetup.initialValuation := showZ (-9007199254740991) |} in
  CompanySetup.handleSubmit form
  = {| Index.name := "Acme";
       Index.foundersShares := Fin (inject_Z 9007199254740991);
       Index.totalShares := Fin (inject_Z 0);
       Index.initialValuation := Fin (inject_Z (-9007199254740991)) |} /\
  company (handleCompanySetup (CompanySetup.handleSubmit form) initialState)
  = Some (CompanySetup.handleSubmit form).
Proof.
  apply (@C9_handleSubmit_accepts_any_numbers
           "Acme" 9007199254740991 0 (-9007199254740991) initialState);
    unfold isSafeInteger; vm_compute; discriminate.
Defined.

(** ** Two notes under one name *)

Section SameName.

Variable n : string.
Variable r : PricingRoundData.
Variable t : num.

Lemma find_filter_nil (l : list OwnershipTable.OwnershipBreakdown) :
  filter (named n) l = [] -> find (named n) l = None.
Proof.
  induction l as [|x l IH]; simpl; [reflexivity|].
  destruct (named n x); [discriminate|exact IH].
Qed.

Lemma find_filter_cons (l : list OwnershipTable.OwnershipBreakdown) :
  filter (named n) l <> [] -> exists x, find (named n) l = Some x.
Proof.
  induction l as [|x l IH]; simpl; [congruence|].
  destruct (named n x); [eauto|exact IH].
Qed.

(** The inner loop leaves the entries under a name that is already taken. *)
Lemma convert_keeps (safes : list SafeInvestment) :
  forall (acc : num) (st : list OwnershipTable.OwnershipBreakdown),
  filter (named n) st <> [] ->
  filter (named n) (snd (fold_left (OwnershipTable.convertSafe r t) safes (acc, st)))
  = filter (named n) st.
Proof.
  induction safes as [|s safes IH]; intros acc st Hne; simpl; [reflexivity|].
  destruct (converted s); simpl; [|now apply IH].
  destruct (find _ st) as [x|] eqn:Efind.
  - now apply IH.
  - destruct (String.eqb_spec (investorName s) n) as [E|E].
    + exfalso. destruct (find_filter_cons _ Hne) as (x & Hx).
      unfold named in Hx. rewrite <- E in Hx. congruence.
    + assert (Hf : filter (named n) (st ++ [safeBreakdown r t s]) = filter (named n) st).
      { rewrite filter_app. simpl. unfold named at 2. simpl.
        apply String.eqb_neq in E. rewrite E. apply app_nil_r. }
      rewrite <- Hf. apply IH. now rewrite Hf.
Qed.

(** On a list with no entry under the name, the inner loop pushes the entry
    of the first note under that name that is flagged converted. *)
Lemma convert_first (safes : list SafeInvestment) :
  forall (acc : num) (st : list OwnershipTable.OwnershipBreakdown),
  filter (named n) st = [] ->
  filter (named n) (snd (fold_left (OwnershipTable.convertSafe r t) safes (acc, st)))
  = match firstConverted n safes with
    | Some s => [safeBreakdown r t s]
    | None => []
    end.
Proof.
  induction safes as [|s safes IH]; intros acc st Hnil; simpl; [exact Hnil|].
  unfold firstConverted. simpl.
  destruct (converted s); simpl; [|now apply IH].
  destruct (String.eqb_spec (investorName s) n) as [E|E].
  - assert (Hfind : find (fun x => (OwnershipTable.stakeholder x =? investorName s)%string) st
                    = None)
      by (rewrite E; apply find_filter_nil; exact Hnil).
    rewrite Hfind.
    assert (Hf : filter (named n) (st ++ [safeBreakdown r t s]) = [safeBreakdown r t s]).
    { rewrite filter_app, Hnil. simpl. unfold named. simpl. rewrite E.
      now rewrite String.eqb_refl. }
    fold (safeBreakdown r t s).
    rewrite convert_keeps; [exact Hf|]. rewrite Hf. discriminate.
  - destruct (find _ st) as [x|] eqn:Efind.
    + now apply IH.
    + apply IH. rewrite filter_app, Hnil. simpl. unfold named. simpl.
      apply String.eqb_neq in E. now rewrite E.
Qed.

Lemma investors_not_named (q : num) (l : list NewInvestor) :
  Forall (fun i => investor_name i <> n) l ->
  filter (named n) (map (OwnershipTable.investorEntry q) l) = [].
Proof.
  induction 1 as [|i l Hi _ IH]; simpl; [reflexivity|].
  unfold named at 1. simpl. apply String.eqb_neq in Hi. now rewrite Hi.
Qed.

End SameName.

Lemma Permutation_filter_named (n : string) (l l' : list OwnershipTable.OwnershipBreakdown) :
  Permutation l l' -> Permutation (filter (named n) l) (filter (named n) l').
Proof.
  induction 1 as [| x l l' _ IH | x y l | l l' l'' _ IH1 _ IH2]; simpl.
  - constructor.
  - destruct (named n x); [now constructor | exact IH].
  - destruct (named n x), (named n y); try reflexivity. apply perm_swap.
  - now rewrite IH1.
Qed.

Lemma round_first (n : string) (safes : list SafeInvestment) (st : OwnershipTable.Loop)
    (r : PricingRoundData) :
  filter (named n) (OwnershipTable.cur_stakeholders st) = [] ->
  Forall (fun i => investor_name i <> n) (newInvestors r) ->
  filter (named n) (OwnershipTable.cur_stakeholders (OwnershipTable.processRound safes st r))
  = match firstConverted n safes with
    | Some s => [safeBreakdown r (OwnershipTable.cur_totalShares st) s]
    | None => []
    end.
Proof.
  intros Hnil Hinv. unfold OwnershipTable.processRound.
  pose proof (convert_first n r (OwnershipTable.cur_totalShares st) safes zero _ Hnil) as H.
  destruct (fold_left _ safes _) as [safeShares stakeholders]. simpl in H |- *.
  now rewrite filter_app, H, investors_not_named, app_nil_r.
Qed.

Lemma round_keeps (n : string) (safes : list SafeInvestment) (st : OwnershipTable.Loop)
    (r : PricingRoundData) :
  filter (named n) (OwnershipTable.cur_stakeholders st) <> [] ->
  Forall (fun i => investor_name i <> n) (newInvestors r) ->
  filter (named n) (OwnershipTable.cur_stakeholders (OwnershipTable.processRound safes st r))
  = filter (named n) (OwnershipTable.cur_stakeholders st).
Proof.
  intros Hne Hinv. unfold OwnershipTable.processRound.
  pose proof (convert_keeps n r (OwnershipTable.cur_totalShares st) safes zero _ Hne) as H.
  destruct (fold_left _ safes _) as [safeShares stakeholders]. simpl in H |- *.
  now rewrite filter_app, H, investors_not_named, app_nil_r.
Qed.

Lemma rounds_keep (n : string) (safes : list SafeInvestment) (rounds : list PricingRoundData) :
  forall st,
  filter (named n) (OwnershipTable.cur_stakeholders st) <> [] ->
  Forall (fun r => Forall (fun i => investor_name i <> n) (newInvestors r)) rounds ->
  filter (named n)
    (OwnershipTable.cur_stakeholders (fold_left (OwnershipTable.processRound safes) rounds st))
  = filter (named n) (OwnershipTable.cur_stakeholders st).
Proof.
  induction rounds as [|r rounds IH]; intros st Hne Hinv; simpl; [reflexivity|].
  inversion Hinv as [|? ? Hr Hrest]; subst.
  rewrite IH; try assumption.
  - now apply round_keeps.
  - now rewrite round_keeps.
Qed.

Lemma firstConverted_split (n : string) (pre rest : list SafeInvestment) (s1 : SafeInvestment) :
  Forall (fun s => investorName s = n -> converted s = false) pre ->
  investorName s1 = n -> converted s1 = true ->
  firstConverted n (pre ++ s1 :: rest) = Some s1.
Proof.
  intros Hpre Hn Hc. unfold firstConverted.
  induction Hpre as [|s pre Hs _ IH]; simpl.
  - rewrite Hc, Hn, String.eqb_refl. reflexivity.
  - destruct (String.eqb_spec (investorName s) n) as [E|E].
    + rewrite (Hs E). exact IH.
    + rewrite andb_false_r. exact IH.
Qed.

(** The inner loop adds the converted shares of every note that is flagged
    converted, pushed or not. *)
Lemma convert_safeShares (r : PricingRoundData) (t : num) (safes : list SafeInvestment) :
  forall (acc : num) (st : list OwnershipTable.OwnershipBreakdown),
  fst (fold_left (OwnershipTable.convertSafe r t) safes (acc, st))
  = fold_left (fun sum x => (sum + convertedShares r t x)%js) (filter converted safes) acc.
Proof.
  induction safes as [|s safes IH]; intros acc st; simpl; [reflexivity|].
  destruct (converted s); simpl; [|apply IH].
  destruct (find _ st); apply IH.
Qed.

Lemma snapshot_named (n : string) (c : Company) (safes : list SafeInvestment)
    (rounds : list PricingRoundData) (e : OwnershipTable.OwnershipBreakdown) :
  let st := OwnershipTable.runRounds c safes rounds in
  filter (named n) (OwnershipTable.cur_stakeholders st) = [e] ->
  filter (named n) (OwnershipTable.stakeholders (OwnershipTable.ownershipData c safes rounds))
  = [OwnershipTable.setOwnership (OwnershipTable.cur_totalShares st) e].
Proof.
  intros st H.
  change (OwnershipTable.stakeholders (OwnershipTable.ownershipData c safes rounds))
    with (OwnershipTable.sort
            (map (OwnershipTable.setOwnership (OwnershipTable.cur_totalShares st))
                 (OwnershipTable.cur_stakeholders st))).
  apply Permutation_length_1_inv.
  rewrite (Permutation_filter_named n (sort_perm _)).
  assert (Hmap : forall t l,
             filter (named n) (map (OwnershipTable.setOwnership t) l)
             = map (OwnershipTable.setOwnership t) (filter (named n) l)).
  { intros t l. induction l as [|x l IH]; [reflexivity|].
    cbn [filter map].
    change (named n (OwnershipTable.setOwnership t x)) with (named n x).
    destruct (named n x); cbn [map]; now rewrite IH. }
  rewrite Hmap, H. reflexivity.
Qed.

(** C10 (amended).  When two notes under one name are both flagged
    converted, the name is not "Founders" and no investor of a round bears
    it, the snapshot of the ownership view holds exactly one entry under
    that name: it carries the shares the first converted note under the name
    converts into at the first round, and that note's amount.  The total
    after the first round contains the converted shares of every note that
    is flagged converted, the second one included. *)
Theorem C10_one_entry_for_a_repeated_name
    (c : Company) (r : PricingRoundData) (rest : list PricingRoundData)
    (pre mid post : list SafeInvestment) (s1 s2 : SafeInvestment) (n : string) :
  let safes := pre ++ s1 :: mid ++ s2 :: post in
  let rounds := r :: rest in
  let shares0 := Index.totalShares c in
  investorName s1 = n -> investorName s2 = n ->
  converted s1 = true -> converted s2 = true ->
  Forall (fun s => investorName s = n -> converted s = false) pre ->
  n <> "Founders" ->
  Forall (fun r => Forall (fun i => investor_name i <> n) (newInvestors r)) rounds ->
  (exists e,
     filter (named n)
            (OwnershipTable.stakeholders (OwnershipTable.ownershipData c safes rounds)) = [e] /\
     OwnershipTable.shares e = convertedShares r shares0 s1 /\
     OwnershipTable.investment e = amount s1 /\
     OwnershipTable.type e = safe) /\
  OwnershipTable.totalShares (OwnershipTable.ownershipData c safes [r])
  = (shares0 + (sumOf (convertedShares r shares0) (filter converted safes)
                + newShares safes r shares0))%js /\
  In s1 (filter converted safes) /\ In s2 (filter converted safes).
Proof.
  intros safes rounds shares0 Hn1 Hn2 Hc1 Hc2 Hpre Hnf Hinv.
  inversion Hinv as [|? ? Hr Hrest]; subst x l.
  assert (Hfirst : firstConverted n safes = Some s1)
    by now apply firstConverted_split.
  assert (Hinit : filter (named n) (OwnershipTable.cur_stakeholders (OwnershipTable.init c)) = []).
  { cbn [OwnershipTable.init OwnershipTable.cur_stakeholders filter].
    unfold named. cbn [OwnershipTable.stakeholder].
    destruct (String.eqb_spec "Founders" n); [congruence|reflexivity]. }
  pose proof (@round_first n safes (OwnershipTable.init c) r Hinit Hr) as H1.
  rewrite Hfirst in H1.
  assert (Hall : filter (named n)
                   (OwnershipTable.cur_stakeholders (OwnershipTable.runRounds c safes rounds))
                 = [safeBreakdown r shares0 s1]).
  { unfold OwnershipTable.runRounds, rounds. simpl.
    rewrite rounds_keep; [exact H1| |exact Hrest]. rewrite H1. discriminate. }
  split; [|split; [|split]].
  - eexists. split; [apply snapshot_named; exact Hall|]. repeat split.
  - unfold OwnershipTable.ownershipData, OwnershipTable.runRounds. simpl.
    unfold OwnershipTable.processRound.
    pose proof (convert_safeShares r shares0 safes zero
                  (OwnershipTable.cur_stakeholders (OwnershipTable.init c))) as Hs.
    simpl in Hs |- *. fold shares0.
    destruct (fold_left _ safes _) as [safeShares stakeholders]. simpl in Hs |- *.
    rewrite Hs. reflexivity.
  - apply filter_In. split; [|exact Hc1]. unfold safes. apply in_or_app. right. now left.
  - apply filter_In. split; [|exact Hc2]. unfold safes.
    apply in_or_app. right. right. apply in_or_app. right. now left.
Qed.

(** C10, counterexamples.  Two notes under the name "Twin" are added after
    the round, so neither is flagged converted: the snapshot holds no entry
    under that name, and the total holds the shares of the first note
    "Angel" and of the round only.  And when the holder of two converted
    notes also invests in the round, the snapshot holds two entries under
    the name. *)
Lemma C10_counterexample :
  let safes := safeRounds Scenario.stateLateTwins in
  let rounds := pricingRounds Scenario.stateLateTwins in
  let data := OwnershipTable.ownershipData Scenario.acme safes rounds in
  let shares0 := Index.totalShares Scenario.acme in
  let safes' := safeRounds Scenario.stateAngelInRound in
  let rounds' := pricingRounds Scenario.stateAngelInRound in
  let data' := OwnershipTable.ownershipData Scenario.acme safes' rounds' in
  (map investorName safes = ["Angel"; "Twin"; "Twin"] /\
   map safe_id safes = ["s1"; "s2"; "s3"] /\
   rounds = [Scenario.round] /\
   filter (named "Twin") (OwnershipTable.stakeholders data) = [] /\
   OwnershipTable.totalShares data
   =~= (shares0 + (convertedShares Scenario.round shares0 Scenario.note
                   + newShares safes Scenario.round shares0))%js) /\
  (map investorName safes' = ["Angel"; "Angel"] /\
   map converted safes' = [true; true] /\
   List.length rounds' = 1%nat /\
   map OwnershipTable.type (filter (named "Angel") (OwnershipTable.stakeholders data'))
   = [investor; safe]).
Proof. by_computation. Qed.

Lemma C10_one_entry_witness :
  let safes := safeRounds Scenario.stateSameName in
  let rounds := pricingRounds Scenario.stateSameName in
  let shares0 := Index.totalShares Scenario.acme in
  safes = [Scenario.note; Scenario.noteAgain] /\
  rounds = [Scenario.round] /\
  (exists e,
     filter (named "Angel")
            (OwnershipTable.stakeholders (OwnershipTable.ownershipData Scenario.acme safes rounds))
     = [e] /\
     OwnershipTable.shares e = convertedShares Scenario.round shares0 Scenario.note /\
     OwnershipTable.investment e = amount Scenario.note /\
     OwnershipTable.type e = safe) /\
  OwnershipTable.totalShares (OwnershipTable.ownershipData Scenario.acme safes rounds)
  = (shares0 + (sumOf (convertedShares Scenario.round shares0) (filter converted safes)
                + newShares safes Scenario.round shares0))%js /\
  In Scenario.note (filter converted safes) /\ In Scenario.noteAgain (filter converted safes).
Proof.
  intros safes rounds shares0.
  split; [reflexivity|]. split; [reflexivity|].
  apply (@C10_one_entry_for_a_repeated_name
           Scenario.acme Scenario.round [] [] [] [] Scenario.note Scenario.noteAgain "Angel");
    try reflexivity.
  - constructor.
  - discriminate.
  - repeat constructor. discriminate.
Defined.

(** * Further properties of the code *)

(** ** The page state under any sequence of handler calls *)

Lemma run_app (before after : list Event) :
  run (before ++ after) = fold_left handle after (run before).
Proof. unfold run. apply fold_left_app. Qed.

Lemma safes_count (events : list Event) (st : State) :
  List.length (safeRounds (fold_left handle events st))
  = (List.length (safeRounds st) + List.length (filter isAddSafe events))%nat.
Proof.
  revert st. induction events as [|e events IH]; intros st; simpl; [lia|].
  rewrite IH. destruct e; simpl; rewrite ?length_app, ?length_map; simpl; lia.
Qed.

Lemma rounds_count (events : list Event) (st : State) :
  List.length (pricingRounds (fold_left handle events st))
  = (List.length (pricingRounds st) + List.length (filter isAddRound events))%nat.
Proof.
  revert st. induction events as [|e events IH]; intros st; simpl; [lia|].
  rewrite IH. destruct e; simpl; rewrite ?length_app; simpl; lia.
Qed.

Lemma note_kept (events : list Event) :
  forall (st : State) (i : nat) (id : string) (d : SafeData) (flag : bool),
  nth_error (safeRounds st) i = Some (noteOf id d flag) ->
  nth_error (safeRounds (fold_left handle events st)) i
  = Some (noteOf id d (flag || existsb isAddRound events)).
Proof.
  induction events as [|e events IH]; intros st i id d flag H; simpl.
  - now rewrite orb_false_r.
  - destruct e as [c|id' d'|id' d']; simpl.
    + apply IH. exact H.
    + apply IH. simpl. rewrite nth_error_app1; [exact H|].
      apply nth_error_Some. congruence.
    + rewrite (IH _ i id d true).
      * now rewrite orb_true_r.
      * simpl. rewrite nth_error_map, H. reflexivity.
Qed.

Lemma round_kept (events : list Event) :
  forall (st : State) (i : nat) (r : PricingRoundData),
  nth_error (pricingRounds st) i = Some r ->
  nth_error (pricingRounds (fold_left handle events st)) i = Some r.
Proof.
  induction events as [|e events IH]; intros st i r H; simpl; [exact H|].
  apply IH. destruct e; simpl; try exact H.
  rewrite nth_error_app1; [exact H|]. apply nth_error_Some. congruence.
Qed.

(** X1.  Whatever the handlers are called with and in whatever order, the
    note added by the k-th call of [handleSafeRound] stays the k-th note with
    its id, name, amount, discount and cap, and it is flagged converted
    exactly when [handlePricingRound] was called after it. *)
Theorem X1_note_flagged_iff_round_added_later
    (before after : list Event) (id : string) (safeData : SafeData) :
  nth_error (safeRounds (run (before ++ AddSafe id safeData :: after)))
            (List.length (filter isAddSafe before))
  = Some (noteOf id safeData (existsb isAddRound after)).
Proof.
  rewrite run_app. simpl.
  apply (note_kept after) with (flag := false). simpl.
  pose proof (safes_count before initialState) as Hlen. simpl in Hlen.
  fold (run before) in Hlen. rewrite <- Hlen.
  rewrite nth_error_app2, Nat.sub_diag by lia. reflexivity.
Qed.

(** X2.  The rounds are append-only: the round added by the k-th call of
    [handlePricingRound] stays the k-th round, unchanged, whatever is called
    later, and the page holds as many notes and rounds as were added. *)
Theorem X2_rounds_are_append_only
    (before after : list Event) (id : string) (roundData : RoundData) :
  let st := run (before ++ AddRound id roundData :: after) in
  nth_error (pricingRounds st) (List.length (filter isAddRound before))
  = Some (roundOf id roundData) /\
  List.length (pricingRounds st)
  = List.length (filter isAddRound (before ++ AddRound id roundData :: after)) /\
  List.length (safeRounds st)
  = List.length (filter isAddSafe (before ++ AddRound id roundData :: after)).
Proof.
  intros st. split; [|split].
  - unfold st. rewrite run_app. simpl. apply round_kept. simpl.
    pose proof (rounds_count before initialState) as Hlen. simpl in Hlen.
    fold (run before) in Hlen. rewrite <- Hlen.
    rewrite nth_error_app2, Nat.sub_diag by lia. reflexivity.
  - unfold st, run. now rewrite rounds_count.
  - unfold st, run. now rewrite safes_count.
Qed.

(** ** The totals of the three loops *)

Lemma filter_all_converted (safes : list SafeInvestment) :
  Forall (fun s => converted s = true) safes -> filter converted safes = safes.
Proof.
  induction 1 as [|s safes Hs _ IH]; simpl; [reflexivity|]. now rewrite Hs, IH.
Qed.

Lemma ownership_total_step (safes : list SafeInvestment) (st : OwnershipTable.Loop)
    (r : PricingRoundData) :
  OwnershipTable.cur_totalShares (OwnershipTable.processRound safes st r)
  = (OwnershipTable.cur_totalShares st
     + (sumOf (convertedShares r (OwnershipTable.cur_totalShares st)) (filter converted safes)
        + newShares safes r (OwnershipTable.cur_totalShares st)))%js.
Proof.
  unfold OwnershipTable.processRound.
  pose proof (convert_safeShares r (OwnershipTable.cur_totalShares st) safes zero
                (OwnershipTable.cur_stakeholders st)) as Hs.
  destruct (fold_left _ safes _) as [safeShares stakeholders]. simpl in Hs |- *.
  rewrite Hs. reflexivity.
Qed.

Lemma totals_agree_fold (safes : list SafeInvestment) (rounds : list PricingRoundData) :
  Forall (fun s => converted s = true) safes ->
  forall (st : OwnershipTable.Loop) (os : ExitScenario.OwnershipStructure),
  OwnershipTable.cur_totalShares st = ExitScenario.totalShares os ->
  OwnershipTable.cur_totalShares (fold_left (OwnershipTable.processRound safes) rounds st)
  = ExitScenario.totalShares (fold_left (ExitScenario.processRound safes) rounds os).
Proof.
  intros Hc. induction rounds as [|r rounds IH]; intros st os H; simpl; [exact H|].
  apply IH. rewrite ownership_total_step, (filter_all_converted Hc), H. reflexivity.
Qed.

(** X3.  When every note is flagged converted the ownership view and the
    exit view hold the same total of shares outstanding, after any number of
    rounds and whatever the names are. *)
Theorem X3_totals_agree_when_all_notes_flagged
    (c : Company) (safes : list SafeInvestment) (rounds : list PricingRoundData) :
  Forall (fun s => converted s = true) safes ->
  OwnershipTable.totalShares (OwnershipTable.ownershipData c safes rounds)
  = ExitScenario.totalShares (ExitScenario.runRounds c safes rounds).
Proof.
  intros Hc. unfold OwnershipTable.ownershipData, OwnershipTable.runRounds,
    ExitScenario.runRounds. simpl.
  now apply totals_agree_fold.
Qed.

Lemma X3_totals_agree_witness :
  Forall (fun s => converted s = true) (safeRounds Scenario.stateTwoRounds) /\
  OwnershipTable.totalShares
    (OwnershipTable.ownershipData Scenario.acme (safeRounds Scenario.stateTwoRounds)
       (pricingRounds Scenario.stateTwoRounds))
  = ExitScenario.totalShares
      (ExitScenario.runRounds Scenario.acme (safeRounds Scenario.stateTwoRounds)
         (pricingRounds Scenario.stateTwoRounds)).
Proof.
  assert (H : Forall (fun s => converted s = true) (safeRounds Scenario.stateTwoRounds))
    by (repeat constructor).
  split; [exact H|].
  exact (@X3_totals_agree_when_all_notes_flagged Scenario.acme _ _ H).
Defined.

Lemma dilution_fold (c : Company) (safes : list SafeInvestment) (rounds : list PricingRoundData) :
  forall (os : ExitScenario.OwnershipStructure) (points : list OwnershipTable.DilutionPoint),
  exists more,
    fold_left (OwnershipTable.dilutionStep c safes) rounds
              (ExitScenario.totalShares os, points)
    = (ExitScenario.totalShares (fold_left (ExitScenario.processRound safes) rounds os),
       points ++ more) /\
    List.length more = List.length rounds.
Proof.
  induction rounds as [|r rounds IH]; intros os points; simpl.
  - exists []. now rewrite app_nil_r.
  - destruct (IH (ExitScenario.processRound safes os r)
                 (points ++
                  [ {| OwnershipTable.dil_round := round_name r;
                       OwnershipTable.founderOwnership :=
                         (foundersShares c
                          / ExitScenario.totalShares (ExitScenario.processRound safes os r)
                          * hundred)%js |} ]))
      as (more & Hfold & Hlen).
    eexists (_ :: more). split; [|simpl; now rewrite Hlen].
    rewrite <- app_assoc in Hfold. exact Hfold.
Qed.

(** X4.  The dilution chart has one point for the start and one per round,
    in order; the point of a round carries the round's name and the
    founders' shares as a percentage of the total the exit view holds after
    that round. *)
Theorem X4_dilution_points_follow_the_rounds
    (c : Company) (safes : list SafeInvestment)
    (pre post : list PricingRoundData) (r : PricingRoundData) :
  let data := OwnershipTable.ownershipData c safes (pre ++ r :: post) in
  List.length (OwnershipTable.dilutionData data) = S (List.length (pre ++ r :: post)) /\
  nth_error (OwnershipTable.dilutionData data) 0
  = Some {| OwnershipTable.dil_round := "Initial";
            OwnershipTable.founderOwnership :=
              (foundersShares c / Index.totalShares c * hundred)%js |} /\
  nth_error (OwnershipTable.dilutionData data) (S (List.length pre))
  = Some {| OwnershipTable.dil_round := round_name r;
            OwnershipTable.founderOwnership :=
              (foundersShares c
               / ExitScenario.totalShares (ExitScenario.runRounds c safes (pre ++ [r]))
               * hundred)%js |}.
Proof.
  intros data. unfold data, OwnershipTable.ownershipData. simpl.
  set (p0 := {| OwnershipTable.dil_round := "Initial";
                OwnershipTable.founderOwnership :=
                  (foundersShares c / Index.totalShares c * hundred)%js |}).
  change (Index.totalShares c) with (ExitScenario.totalShares (ExitScenario.init c)) at 1 2 3.
  rewrite fold_left_app.
  destruct (dilution_fold c safes pre (ExitScenario.init c) [p0]) as (m1 & H1 & L1).
  rewrite H1. simpl.
  unfold ExitScenario.runRounds. rewrite fold_left_app. simpl.
  set (os1 := fold_left (ExitScenario.processRound safes) pre (ExitScenario.init c)).
  destruct (dilution_fold c safes post (ExitScenario.processRound safes os1 r)
              ((p0 :: m1) ++
               [ {| OwnershipTable.dil_round := round_name r;
                    OwnershipTable.founderOwnership :=
                      (foundersShares c
                       / ExitScenario.totalShares (ExitScenario.processRound safes os1 r)
                       * hundred)%js |} ]))
    as (m2 & H2 & L2).
  change (fold_left (OwnershipTable.dilutionStep c safes) post _)
    with (fold_left (OwnershipTable.dilutionStep c safes) post
            (ExitScenario.totalShares (ExitScenario.processRound safes os1 r),
             (p0 :: m1) ++
             [ {| OwnershipTable.dil_round := round_name r;
                  OwnershipTable.founderOwnership :=
                    (foundersShares c
                     / ExitScenario.totalShares (ExitScenario.processRound safes os1 r)
                     * hundred)%js |} ])).
  rewrite H2. simpl. split; [|split].
  - rewrite !length_app. simpl. lia.
  - reflexivity.
  - rewrite <- app_assoc, nth_error_app2 by lia. rewrite L1, Nat.sub_diag. reflexivity.
Qed.

(** ** Dilution on valid inputs *)

Lemma exit_total_grows (safes : list SafeInvestment) (os : ExitScenario.OwnershipStructure)
    (r : PricingRoundData) (t : Q) :
  Forall validSafe safes -> validRound safes r ->
  ExitScenario.totalShares os = Fin t -> 0 < t ->
  exists t', ExitScenario.totalShares (ExitScenario.processRound safes os r) = Fin t' /\ t < t'.
Proof.
  intros Hs Hr Ht Htpos.
  destruct (validRound_inv Hs Hr Htpos) as (p & e & Hp & Hppos & _ & _ & Hpps & Hq).
  destruct Hr as (_ & Hinv & _).
  destruct (safeEntries_sum Hs r Hp Hppos Htpos) as (_ & Hssum & Hsnn).
  apply positive_inv in Hinv. destruct Hinv as (I & HI & HIpos).
  unfold ExitScenario.processRound. simpl.
  rewrite Ht, Hpps, Hssum, HI, (div_fin _ (Qpos_neq Hq)). simpl.
  eexists. split; [reflexivity|].
  assert (0 < I / (e / t)) by now apply Qdiv_pos. lra.
Qed.

Lemma exit_total_positive (c : Company) (safes : list SafeInvestment)
    (rounds : list PricingRoundData) :
  validCompany c -> Forall validSafe safes -> Forall (validRound safes) rounds ->
  exists t, ExitScenario.totalShares (ExitScenario.runRounds c safes rounds) = Fin t /\ 0 < t.
Proof.
  intros (Hc & _) Hs. apply positive_inv in Hc. destruct Hc as (t0 & Ht0 & Hpos0).
  unfold ExitScenario.runRounds.
  change (Index.totalShares c) with (ExitScenario.totalShares (ExitScenario.init c)) in Ht0.
  revert Ht0 Hpos0. generalize (ExitScenario.init c) t0.
  induction rounds as [|r rounds IH]; intros os t Ht Hpos Hr; simpl; [eauto|].
  inversion Hr as [|? ? Hr1 Hr2]; subst.
  destruct (exit_total_grows os Hs Hr1 Ht Hpos) as (t' & Ht' & Hlt).
  apply (IH _ t'); [assumption|lra|assumption].
Qed.

(** X5.  In exact arithmetic, on valid inputs every processed round strictly
    increases the total of shares outstanding.  (Rounding is left out: a
    double can absorb the shares of a round that is tiny against the total.) *)
Theorem X5_total_shares_grow_with_every_round
    (c : Company) (safes : list SafeInvestment)
    (pre : list PricingRoundData) (r : PricingRoundData) :
  validCompany c -> Forall validSafe safes -> Forall (validRound safes) (pre ++ [r]) ->
  (ExitScenario.totalShares (ExitScenario.runRounds c safes (pre ++ [r]))
   > ExitScenario.totalShares (ExitScenario.runRounds c safes pre))%js = true.
Proof.
  intros Hc Hs Hr. apply Forall_app in Hr. destruct Hr as (Hpre & Hr).
  inversion Hr as [|? ? Hr1 _]; subst.
  destruct (exit_total_positive Hc Hs Hpre) as (t & Ht & Hpos).
  unfold ExitScenario.runRounds in *. rewrite fold_left_app. cbn [fold_left].
  destruct (exit_total_grows _ Hs Hr1 Ht Hpos) as (t' & Ht' & Hlt).
  rewrite Ht, Ht'. simpl.
  destruct (Qle_bool t' t) eqn:E; [|reflexivity].
  apply Qle_bool_iff in E. lra.
Qed.

Lemma X5_total_shares_grow_witness :
  (ExitScenario.totalShares
     (ExitScenario.runRounds Scenario.acme [Scenario.note] ([Scenario.round] ++ [Scenario.roundB]))
   > ExitScenario.totalShares
       (ExitScenario.runRounds Scenario.acme [Scenario.note] [Scenario.round]))%js = true.
Proof.
  apply (@X5_total_shares_grow_with_every_round
           Scenario.acme [Scenario.note] [Scenario.round] Scenario.roundB);
    valid_input.
Defined.

(** X6.  In exact arithmetic, on valid inputs with a positive number of
    founder shares, the founders' percentage of the dilution chart strictly
    falls with every round.  (Rounding is left out, as for the total of
    shares.) *)
Theorem X6_founder_percentage_falls_with_every_round
    (c : Company) (safes : list SafeInvestment)
    (pre : list PricingRoundData) (r : PricingRoundData) :
  validCompany c -> positive (foundersShares c) ->
  Forall validSafe safes -> Forall (validRound safes) (pre ++ [r]) ->
  ((foundersShares c / ExitScenario.totalShares (ExitScenario.runRounds c safes pre)
    * hundred)
   > (foundersShares c / ExitScenario.totalShares (ExitScenario.runRounds c safes (pre ++ [r]))
      * hundred))%js = true.
Proof.
  intros Hc Hf Hs Hr. apply Forall_app in Hr. destruct Hr as (Hpre & Hr).
  inversion Hr as [|? ? Hr1 _]; subst.
  destruct (exit_total_positive Hc Hs Hpre) as (t & Ht & Hpos).
  unfold ExitScenario.runRounds in *. rewrite fold_left_app. cbn [fold_left].
  destruct (exit_total_grows _ Hs Hr1 Ht Hpos) as (t' & Ht' & Hlt).
  apply positive_inv in Hf. destruct Hf as (f & Hf & Hfpos).
  assert (Hpos' : 0 < t') by lra.
  rewrite Ht, Ht', Hf, (div_fin _ (Qpos_neq Hpos)), (div_fin _ (Qpos_neq Hpos')). simpl.
  destruct (Qle_bool (f / t * 100) (f / t' * 100)) eqn:E; [|reflexivity].
  apply Qle_bool_iff in E. exfalso.
  assert (Hlt' : f / t' < f / t).
  { unfold Qdiv. apply Qmult_lt_l; [assumption|].
    apply -> Qinv_lt_contravar; assumption. }
  lra.
Qed.

Lemma X6_founder_percentage_falls_witness :
  ((foundersShares Scenario.acme
    / ExitScenario.totalShares
        (ExitScenario.runRounds Scenario.acme [Scenario.note] [Scenario.round])
    * hundred)
   > (foundersShares Scenario.acme
      / ExitScenario.totalShares
          (ExitScenario.runRounds Scenario.acme [Scenario.note]
             ([Scenario.round] ++ [Scenario.roundB]))
      * hundred))%js = true.
Proof.
  apply (@X6_founder_percentage_falls_with_every_round
           Scenario.acme [Scenario.note] [Scenario.round] Scenario.roundB);
    valid_input.
Defined.

(** ** The entries of the exit view *)

Lemma exit_founders_head (c : Company) (safes : list SafeInvestment)
    (rounds : list PricingRoundData) :
  exists rest,
    ExitScenario.stakeholders (ExitScenario.runRounds c safes rounds)
    = {| ExitScenario.name := "Founders";
         ExitScenario.shares := foundersShares c;
         ExitScenario.investment := zero;
         ExitScenario.type := founder |} :: rest /\
    Forall (fun x => ExitScenario.type x <> founder) rest /\
    List.length rest
    = (List.length rounds * List.length safes
       + list_sum (map (fun r => List.length (newInvestors r)) rounds))%nat.
Proof.
  unfold ExitScenario.runRounds.
  set (f := {| ExitScenario.name := "Founders";
               ExitScenario.shares := foundersShares c;
               ExitScenario.investment := zero;
               ExitScenario.type := founder |}).
  assert (H : forall os rest0,
             ExitScenario.stakeholders os = f :: rest0 ->
             Forall (fun x => ExitScenario.type x <> founder) rest0 ->
             exists rest,
               ExitScenario.stakeholders (fold_left (ExitScenario.processRound safes) rounds os)
               = f :: rest /\
               Forall (fun x => ExitScenario.type x <> founder) rest /\
               List.length rest
               = (List.length rest0 + List.length rounds * List.length safes
                  + list_sum (map (fun r => List.length (newInvestors r)) rounds))%nat).
  { induction rounds as [|r rounds IH]; intros os rest0 Hl Hrest; simpl.
    - exists rest0. repeat split; try assumption. lia.
    - destruct (IH (ExitScenario.processRound safes os r)
                   (rest0 ++ map (ExitScenario.safeEntry r (ExitScenario.totalShares os)) safes
                    ++ map (ExitScenario.investorEntry
                              (pricePerShare safes r (ExitScenario.totalShares os)))
                           (newInvestors r)))
        as (rest' & Hl' & Hrest' & Hlen').
      + unfold ExitScenario.processRound. simpl. rewrite Hl. simpl.
        now rewrite <- app_assoc.
      + repeat (apply Forall_app; split); try assumption;
          apply Forall_map, Forall_forall; intros x _; simpl; discriminate.
      + exists rest'. repeat split; try assumption.
        rewrite Hlen', !length_app, !length_map. lia. }
  destruct (H (ExitScenario.init c) []) as (rest & Hl & Hrest & Hlen);
    [reflexivity|constructor|].
  exists rest. split; [exact Hl|]. split; [exact Hrest|]. simpl in Hlen. exact Hlen.
Qed.

(** X7.  The founders' payout is always the founders' shares times the exit
    price per share, whatever the other stakeholders are called; every other
    entry of the exit view, and only those, gets an investor payout. *)
Theorem X7_founder_payout_is_the_founders_entry
    (c : Company) (safes : list SafeInvestment) (rounds : list PricingRoundData)
    (exitVal : num) :
  let os := ExitScenario.runRounds c safes rounds in
  let calc := ExitScenario.exitCalculation os exitVal in
  ExitScenario.founderPayout calc
  = (foundersShares c * (exitVal / ExitScenario.totalShares os))%js /\
  map ExitScenario.ip_name (ExitScenario.investorPayouts calc)
  = tl (map ExitScenario.name (ExitScenario.stakeholders os)).
Proof.
  intros os calc.
  destruct (exit_founders_head c safes rounds) as (rest & Hl & Hrest & _).
  unfold calc, ExitScenario.exitCalculation. fold os in Hl. rewrite Hl.
  cbn [find ExitScenario.name String.eqb Ascii.eqb Bool.eqb
       ExitScenario.founderPayout ExitScenario.investorPayouts filter
       ExitScenario.type StakeholderType_eqb negb ExitScenario.shares map tl].
  split; [reflexivity|].
  rewrite (filter_nonfounder Hrest), map_map. reflexivity.
Qed.

(** X8.  The exit view holds the founders' entry, then one entry per note
    for every processed round and one entry per investor of every round. *)
Theorem X8_number_of_exit_entries
    (c : Company) (safes : list SafeInvestment) (rounds : list PricingRoundData) :
  List.length (ExitScenario.stakeholders (ExitScenario.runRounds c safes rounds))
  = (1 + List.length rounds * List.length safes
     + list_sum (map (fun r => List.length (newInvestors r)) rounds))%nat.
Proof.
  destruct (exit_founders_head c safes rounds) as (rest & Hl & _ & Hlen).
  rewrite Hl. simpl. lia.
Qed.

(** ** Edge cases of the conversion *)

Lemma isZero_true (q : Q) : q == 0 -> isZero q = true.
Proof. intros H. unfold isZero. now apply Qeq_bool_iff. Qed.

Lemma Math_min_infinity (a : num) : Math_min a Infinity = a.
Proof. destruct a; reflexivity. Qed.

(** X9.  A cap field left blank, or holding 0 or something that is not a
    number, gives a note without cap: it converts at the discount price. *)
Theorem X9_blank_or_zero_cap_is_no_cap
    (id : string) (form : SafeRound.FormData) (round : PricingRoundData) :
  let s := noteOf id (SafeRound.handleSubmit form) false in
  nonEmpty (SafeRound.valuationCap form) = false \/
  truthy (parseFloat (SafeRound.valuationCap form)) = false ->
  capPrice s = Infinity /\ conversionPrice round s = discountPrice round s.
Proof.
  intros s H.
  assert (Hcap : capPrice s = Infinity).
  { unfold capPrice, s. simpl.
    destruct (nonEmpty (SafeRound.valuationCap form)); [|reflexivity].
    destruct H as [H|H]; [discriminate|]. simpl. now rewrite H. }
  split; [exact Hcap|]. unfold conversionPrice. rewrite Hcap.
  apply Math_min_infinity.
Qed.

Lemma X9_blank_or_zero_cap_witness :
  let s := noteOf "s1" (SafeRound.handleSubmit Scenario.zeroCapForm) false in
  capPrice s = Infinity /\ conversionPrice Scenario.round s = discountPrice Scenario.round s.
Proof.
  apply (@X9_blank_or_zero_cap_is_no_cap "s1" Scenario.zeroCapForm Scenario.round).
  right. reflexivity.
Defined.

(** X10.  At a round with a positive pre-money valuation and a positive
    number of shares outstanding, a note at a 100% discount, with a positive
    amount and no cap or a cap that is not negative, converts into
    infinitely many shares. *)
Theorem X10_full_discount_converts_into_infinity
    (round : PricingRoundData) (s : SafeInvestment) (p a t : Q) :
  preMoneyValuation round = Fin p -> 0 < p ->
  discount s = Fin 100 ->
  amount s = Fin a -> 0 < a ->
  0 < t ->
  (valuationCap s = None \/ exists c, valuationCap s = Some (Fin c) /\ 0 <= c) ->
  convertedShares round (Fin t) s = Infinity.
Proof.
  intros Hp _ Hd Ha Hapos Htpos Hcap.
  assert (Ht : ~ t == 0) by now apply Qpos_neq.
  assert (Hdp : discountPrice round s = Fin (p * (1 + - (100 / 100)))).
  { unfold discountPrice. now rewrite Hp, Hd, one_minus_percent. }
  assert (Hz : p * (1 + - (100 / 100)) == 0) by (field).
  assert (Hcp : conversionPrice round s = Fin (p * (1 + - (100 / 100)))).
  { unfold conversionPrice, capPrice. rewrite Hdp.
    destruct Hcap as [->|(c & -> & Hc)]; [reflexivity|].
    simpl. unfold isZero. destruct (Qeq_bool c 0) eqn:E; simpl; [reflexivity|].
    assert (Hle : Qle_bool (p * (1 + - (100 / 100))) c = true)
      by (apply Qle_bool_iff; rewrite Hz; exact Hc).
    now rewrite Hle. }
  unfold convertedShares, sharePrice. rewrite Hcp, Ha, (div_fin _ Ht).
  assert (Hsp : p * (1 + - (100 / 100)) / t == 0) by (rewrite Hz; field; exact Ht).
  simpl. rewrite (isZero_true Hsp). unfold infOfSign.
  rewrite (isZero_false (Qpos_neq Hapos)). unfold isNeg.
  assert (Qle_bool 0 a = true) as -> by (apply Qle_bool_iff; lra).
  reflexivity.
Qed.

Lemma X10_full_discount_witness :
  convertedShares Scenario.round (Fin 10000000) Scenario.freeNote = Infinity.
Proof.
  apply (@X10_full_discount_converts_into_infinity
           Scenario.round Scenario.freeNote 8000000 250000 10000000);
    try reflexivity.
  right. exists 5000000. split; [reflexivity|discriminate].
Defined.

(** ** The table on valid inputs *)

Lemma compare_finite (x y : OwnershipTable.OwnershipBreakdown) :
  finite (OwnershipTable.ownership x) -> finite (OwnershipTable.ownership y) ->
  (OwnershipTable.compareFn x y > zero)%js
  = (OwnershipTable.ownership y > OwnershipTable.ownership x)%js.
Proof.
  intros Hx Hy. unfold OwnershipTable.compareFn.
  rewrite (finite_inv Hx), (finite_inv Hy). simpl. f_equal.
  set (a := toQ (OwnershipTable.ownership x)). set (b := toQ (OwnershipTable.ownership y)).
  destruct (Qle_bool (b + - a) 0) eqn:E1; destruct (Qle_bool b a) eqn:E2; try reflexivity.
  - apply Qle_bool_iff in E1. apply Qle_bool_false in E2. lra.
  - apply Qle_bool_iff in E2. apply Qle_bool_false in E1. lra.
Qed.

Lemma notBelow_finite (x y : OwnershipTable.OwnershipBreakdown) :
  finite (OwnershipTable.ownership x) -> finite (OwnershipTable.ownership y) ->
  (OwnershipTable.ownership y > OwnershipTable.ownership x)%js = true -> notBelow y x.
Proof.
  intros Hx Hy H. unfold notBelow.
  rewrite (finite_inv Hx), (finite_inv Hy) in *. simpl in *.
  apply negb_true_iff in H. apply Qle_bool_false in H.
  apply negb_false_iff, Qle_bool_iff. lra.
Qed.

Lemma insert_sorted (x : OwnershipTable.OwnershipBreakdown)
    (l : list OwnershipTable.OwnershipBreakdown) :
  Forall (fun e => finite (OwnershipTable.ownership e)) (x :: l) ->
  Sorted notBelow l -> Sorted notBelow (OwnershipTable.insert x l).
Proof.
  intros Hfin Hs. inversion Hfin as [|? ? Hx Hl]; subst. clear Hfin.
  induction l as [|y l IH]; simpl.
  - repeat constructor.
  - inversion Hl as [|? ? Hy Hl']; subst. inversion Hs as [|? ? Hs' Hhd]; subst.
    rewrite (compare_finite _ _ Hx Hy).
    destruct (OwnershipTable.ownership y > OwnershipTable.ownership x)%js eqn:E.
    + constructor; [now apply IH|].
      destruct l as [|z l]; simpl.
      * constructor. now apply notBelow_finite.
      * inversion Hl' as [|? ? Hz _]; subst. rewrite (compare_finite _ _ Hx Hz).
        destruct (OwnershipTable.ownership z > OwnershipTable.ownership x)%js.
        -- inversion Hhd; subst. now constructor.
        -- constructor. now apply notBelow_finite.
    + constructor; [exact Hs|]. constructor. exact E.
Qed.

Lemma sort_sorted (l : list OwnershipTable.OwnershipBreakdown) :
  Forall (fun e => finite (OwnershipTable.ownership e)) l ->
  Sorted notBelow (OwnershipTable.sort l).
Proof.
  induction 1 as [|x l Hx Hl IH]; simpl; [constructor|].
  apply insert_sorted; [|exact IH]. constructor; [exact Hx|].
  apply (Permutation_Forall (Permutation_sym (sort_perm l))). exact Hl.
Qed.

Lemma convert_finite (r : PricingRoundData) (safes : list SafeInvestment) (p t : Q) :
  Forall validSafe safes -> preMoneyValuation r = Fin p -> 0 < p -> 0 < t ->
  forall (acc : num) (st : list OwnershipTable.OwnershipBreakdown),
  Forall (fun e => finite (OwnershipTable.shares e)) st ->
  Forall (fun e => finite (OwnershipTable.shares e))
         (snd (fold_left (OwnershipTable.convertSafe r (Fin t)) safes (acc, st))).
Proof.
  intros Hs Hp Hpp Ht. induction Hs as [|s safes Hv _ IH]; intros acc st Hst; simpl.
  - exact Hst.
  - destruct (converted s); simpl; [|now apply IH].
    destruct (find _ st); [now apply IH|].
    apply IH. apply Forall_app. split; [exact Hst|]. constructor; [|constructor].
    simpl. destruct (convertedShares_pos r Hp Hpp Ht Hv) as (x & -> & _). reflexivity.
Qed.

Lemma ownership_step_finite (safes : list SafeInvestment) (st : OwnershipTable.Loop)
    (r : PricingRoundData) (t : Q) :
  Forall validSafe safes -> validRound safes r ->
  OwnershipTable.cur_totalShares st = Fin t -> 0 < t ->
  Forall (fun e => finite (OwnershipTable.shares e)) (OwnershipTable.cur_stakeholders st) ->
  exists t',
    OwnershipTable.cur_totalShares (OwnershipTable.processRound safes st r) = Fin t' /\
    t < t' /\
    Forall (fun e => finite (OwnershipTable.shares e))
           (OwnershipTable.cur_stakeholders (OwnershipTable.processRound safes st r)).
Proof.
  intros Hs Hr Ht Htpos Hfin.
  destruct (validRound_inv Hs Hr Htpos) as (p & e & Hp & Hppos & _ & _ & Hpps & Hq).
  destruct Hr as (_ & Hinv & Hinvs).
  apply positive_inv in Hinv. destruct Hinv as (I & HI & HIpos).
  assert (Hconv : Forall validSafe (filter converted safes)).
  { apply Forall_forall. intros s Hin. apply filter_In in Hin.
    rewrite Forall_forall in Hs. now apply Hs. }
  destruct (safeEntries_sum Hconv r Hp Hppos Htpos) as (_ & Hssum & Hsnn).
  split with (t + (Qsum (fun x => toQ (ExitScenario.shares x))
                        (map (ExitScenario.safeEntry r (Fin t)) (filter converted safes)) 0
                   + I / (e / t))).
  split; [|split].
  - rewrite ownership_total_step, Ht, Hssum. unfold newShares.
    rewrite Hpps, HI, (div_fin _ (Qpos_neq Hq)). reflexivity.
  - assert (0 < I / (e / t)) by now apply Qdiv_pos. lra.
  - unfold OwnershipTable.processRound. rewrite Ht.
    pose proof (convert_finite r Hs Hp Hppos Htpos zero Hfin) as Hc.
    destruct (fold_left _ safes _) as [safeShares stakeholders]. simpl in Hc |- *.
    apply Forall_app. split; [exact Hc|].
    apply Forall_map. eapply Forall_impl; [|exact Hinvs].
    intros i Hi. simpl. rewrite Hpps.
    apply positive_inv in Hi. destruct Hi as (a & -> & _).
    now rewrite (div_fin _ (Qpos_neq Hq)).
Qed.

Lemma ownership_run_finite (c : Company) (safes : list SafeInvestment)
    (rounds : list PricingRoundData) :
  validCompany c -> Forall validSafe safes -> Forall (validRound safes) rounds ->
  exists t,
    OwnershipTable.cur_totalShares (OwnershipTable.runRounds c safes rounds) = Fin t /\
    0 < t /\
    Forall (fun e => finite (OwnershipTable.shares e))
           (OwnershipTable.cur_stakeholders (OwnershipTable.runRounds c safes rounds)).
Proof.
  intros (Hc & Hf) Hs. apply positive_inv in Hc. destruct Hc as (t0 & Ht0 & Hpos0).
  unfold OwnershipTable.runRounds.
  assert (H0 : Forall (fun e => finite (OwnershipTable.shares e))
                      (OwnershipTable.cur_stakeholders (OwnershipTable.init c)))
    by (constructor; [exact Hf|constructor]).
  change (Index.totalShares c)
    with (OwnershipTable.cur_totalShares (OwnershipTable.init c)) in Ht0.
  revert Ht0 Hpos0 H0. generalize (OwnershipTable.init c) t0.
  induction rounds as [|r rounds IH]; intros st t Ht Hpos Hfin Hr; simpl; [eauto|].
  inversion Hr as [|? ? Hr1 Hr2]; subst.
  destruct (ownership_step_finite st Hs Hr1 Ht Hpos Hfin) as (t' & Ht' & Hlt & Hfin').
  apply (IH _ t'); [assumption|lra|assumption|assumption].
Qed.

(** X11.  On valid inputs the table lists the stakeholders by decreasing
    percentage: every percentage is a finite number, the entry's shares over
    the total times 100, and no entry stands above one with a higher
    percentage. *)
Theorem X11_table_is_listed_by_decreasing_percentage
    (c : Company) (safes : list SafeInvestment) (rounds : list PricingRoundData) :
  validCompany c -> Forall validSafe safes -> Forall (validRound safes) rounds ->
  let data := OwnershipTable.ownershipData c safes rounds in
  Sorted notBelow (OwnershipTable.stakeholders data) /\
  Forall (fun e =>
            finite (OwnershipTable.ownership e) /\
            OwnershipTable.ownership e
            = (OwnershipTable.shares e / OwnershipTable.totalShares data * hundred)%js)
         (OwnershipTable.stakeholders data).
Proof.
  intros Hc Hs Hr data.
  destruct (ownership_run_finite Hc Hs Hr) as (t & Ht & Hpos & Hfin).
  assert (Hall : Forall (fun e =>
                    finite (OwnershipTable.ownership e) /\
                    OwnershipTable.ownership e
                    = (OwnershipTable.shares e / OwnershipTable.totalShares data * hundred)%js)
                   (OwnershipTable.withOwnership c safes rounds)).
  { unfold OwnershipTable.withOwnership. apply Forall_map.
    eapply Forall_impl; [|exact Hfin]. intros e He. simpl.
    split; [|reflexivity].
    rewrite Ht, (finite_inv He), (div_fin _ (Qpos_neq Hpos)). reflexivity. }
  split.
  - apply sort_sorted. eapply Forall_impl; [|exact Hall]. now intros e (He & _).
  - apply (Permutation_Forall (Permutation_sym (sort_perm _))). exact Hall.
Qed.

Lemma X11_table_is_listed_witness :
  let data := OwnershipTable.ownershipData Scenario.acme [Scenario.note]
                [Scenario.round; Scenario.roundB] in
  Sorted notBelow (OwnershipTable.stakeholders data) /\
  Forall (fun e =>
            finite (OwnershipTable.ownership e) /\
            OwnershipTable.ownership e
            = (OwnershipTable.shares e / OwnershipTable.totalShares data * hundred)%js)
         (OwnershipTable.stakeholders data).
Proof.
  apply (@X11_table_is_listed_by_decreasing_percentage
           Scenario.acme [Scenario.note] [Scenario.round; Scenario.roundB]);
    valid_input.
Defined.

(** ** The pie chart *)

Lemma StakeholderType_eqb_spec (a b : StakeholderType) :
  reflect (a = b) (StakeholderType_eqb a b).
Proof. destruct a, b; simpl; constructor; congruence. Qed.

Lemma ofType_snoc_same (l : list OwnershipTable.OwnershipBreakdown)
    (x : OwnershipTable.OwnershipBreakdown) :
  ofType (OwnershipTable.type x) (l ++ [x]) = ofType (OwnershipTable.type x) l ++ [x].
Proof.
  unfold ofType. rewrite filter_app. simpl.
  destruct (StakeholderType_eqb_spec (OwnershipTable.type x) (OwnershipTable.type x));
    [reflexivity|congruence].
Qed.

Lemma ofType_snoc_other (l : list OwnershipTable.OwnershipBreakdown)
    (x : OwnershipTable.OwnershipBreakdown) (t : StakeholderType) :
  t <> OwnershipTable.type x -> ofType t (l ++ [x]) = ofType t l.
Proof.
  intros H. unfold ofType. rewrite filter_app. simpl.
  destruct (StakeholderType_eqb_spec (OwnershipTable.type x) t); [congruence|].
  apply app_nil_r.
Qed.

Lemma ofType_nil_iff (l : list OwnershipTable.OwnershipBreakdown) (t : StakeholderType) :
  ofType t l = [] <-> ~ In t (map OwnershipTable.type l).
Proof.
  unfold ofType. induction l as [|x l IH]; simpl.
  - split; [intros _ []|reflexivity].
  - destruct (StakeholderType_eqb_spec (OwnershipTable.type x) t) as [E|E].
    + split; [discriminate|]. intros H. exfalso. apply H. now left.
    + rewrite IH. split.
      * intros H [H'|H']; [congruence|now apply H].
      * intros H H'. apply H. now right.
Qed.

Lemma sumFromFirst_snoc {A : Type} (f : A -> num) (l : list A) (x : A) :
  l <> [] -> sumFromFirst f (l ++ [x]) = (sumFromFirst f l + f x)%js.
Proof.
  destruct l as [|y l]; [congruence|]. intros _. simpl.
  now rewrite fold_left_app.
Qed.

Lemma sliceOf_snoc_same (done : list OwnershipTable.OwnershipBreakdown)
    (x : OwnershipTable.OwnershipBreakdown) :
  In (OwnershipTable.type x) (map OwnershipTable.type done) ->
  OwnershipTable.addToGroup x (sliceOf done (OwnershipTable.type x))
  = sliceOf (done ++ [x]) (OwnershipTable.type x).
Proof.
  intros Hin.
  assert (Hne : ofType (OwnershipTable.type x) done <> [])
    by (intros H; apply ofType_nil_iff in H; contradiction).
  unfold sliceOf, OwnershipTable.addToGroup. simpl.
  rewrite ofType_snoc_same, !(sumFromFirst_snoc _ _ Hne). reflexivity.
Qed.

Lemma sliceOf_snoc_other (done : list OwnershipTable.OwnershipBreakdown)
    (x : OwnershipTable.OwnershipBreakdown) (t : StakeholderType) :
  t <> OwnershipTable.type x -> sliceOf (done ++ [x]) t = sliceOf done t.
Proof. intros H. unfold sliceOf. now rewrite (ofType_snoc_other _ _ H). Qed.

Lemma sliceOf_new (done : list OwnershipTable.OwnershipBreakdown)
    (x : OwnershipTable.OwnershipBreakdown) :
  ~ In (OwnershipTable.type x) (map OwnershipTable.type done) ->
  OwnershipTable.newGroup x = sliceOf (done ++ [x]) (OwnershipTable.type x).
Proof.
  intros H. apply ofType_nil_iff in H.
  unfold sliceOf, OwnershipTable.newGroup. now rewrite ofType_snoc_same, H.
Qed.

Lemma updateExisting_spec (x : OwnershipTable.OwnershipBreakdown)
    (done : list OwnershipTable.OwnershipBreakdown) (acc : list OwnershipTable.ChartGroup) :
  In (OwnershipTable.type x) (map OwnershipTable.type done) ->
  NoDup (map OwnershipTable.cg_type acc) ->
  Forall (fun g => g = sliceOf done (OwnershipTable.cg_type g)) acc ->
  map OwnershipTable.cg_type (OwnershipTable.updateExisting x acc)
  = map OwnershipTable.cg_type acc /\
  Forall (fun g => g = sliceOf (done ++ [x]) (OwnershipTable.cg_type g))
         (OwnershipTable.updateExisting x acc).
Proof.
  intros Hin Hnd Hall. induction acc as [|g acc IH]; simpl.
  - split; constructor.
  - inversion Hnd as [|? ? Hnotin Hnd']; subst.
    inversion Hall as [|? ? Hg Hall']; subst.
    destruct (StakeholderType_eqb_spec (OwnershipTable.cg_type g) (OwnershipTable.type x))
      as [E|E].
    + split; [reflexivity|]. constructor.
      * simpl. rewrite Hg, E. simpl. now apply sliceOf_snoc_same.
      * apply Forall_forall. intros g' Hg'.
        rewrite Forall_forall in Hall'. rewrite (Hall' g' Hg') at 1.
        symmetry. apply sliceOf_snoc_other. intros E'.
        apply Hnotin. rewrite E, <- E'. now apply in_map.
    + destruct (IH Hnd' Hall') as (Htypes & Hslices).
      split; [simpl; now rewrite Htypes|].
      constructor; [|exact Hslices].
      rewrite Hg at 1. symmetry. now apply sliceOf_snoc_other.
Qed.

Lemma find_type_none (t : StakeholderType) (acc : list OwnershipTable.ChartGroup) :
  find (fun item => StakeholderType_eqb (OwnershipTable.cg_type item) t) acc = None <->
  ~ In t (map OwnershipTable.cg_type acc).
Proof.
  induction acc as [|g acc IH]; simpl.
  - split; [intros _ []|reflexivity].
  - destruct (StakeholderType_eqb_spec (OwnershipTable.cg_type g) t) as [E|E].
    + split; [discriminate|]. intros H. exfalso. apply H. now left.
    + rewrite IH. split.
      * intros H [H'|H']; [congruence|now apply H].
      * intros H H'. apply H. now right.
Qed.

Lemma grouped_step (acc : list OwnershipTable.ChartGroup)
    (done : list OwnershipTable.OwnershipBreakdown) (x : OwnershipTable.OwnershipBreakdown) :
  grouped acc done -> grouped (OwnershipTable.chartStep acc x) (done ++ [x]).
Proof.
  intros (Hnd & Hiff & Hall). unfold OwnershipTable.chartStep.
  destruct (find _ acc) as [g|] eqn:Efind.
  - assert (Hin : In (OwnershipTable.type x) (map OwnershipTable.cg_type acc)).
    { destruct (in_dec (fun a b => reflect_dec _ _ (StakeholderType_eqb_spec a b))
                       (OwnershipTable.type x) (map OwnershipTable.cg_type acc))
        as [H|H]; [exact H|].
      apply find_type_none in H. congruence. }
    destruct (updateExisting_spec x (proj1 (Hiff _) Hin) Hnd Hall) as (Htypes & Hslices).
    split; [now rewrite Htypes|]. split; [|exact Hslices].
    intros t. rewrite Htypes, Hiff, map_app, in_app_iff. simpl.
    split; [tauto|]. intros [H|[<-|[]]]; [exact H|]. now apply Hiff.
  - apply find_type_none in Efind.
    assert (Hnew : ~ In (OwnershipTable.type x) (map OwnershipTable.type done))
      by (intros H; apply Efind, Hiff, H).
    split; [|split].
    + rewrite map_app. simpl. apply NoDup_app_remove_l with (l := []). simpl.
      apply Permutation_NoDup with (l := OwnershipTable.type x :: map OwnershipTable.cg_type acc).
      * apply Permutation_cons_append.
      * now constructor.
    + intros t. rewrite !map_app, !in_app_iff, Hiff. simpl. tauto.
    + apply Forall_app. split.
      * apply Forall_forall. intros g Hg. rewrite Forall_forall in Hall.
        rewrite (Hall g Hg) at 1. symmetry. apply sliceOf_snoc_other.
        intros E. apply Efind. rewrite <- E. now apply in_map.
      * constructor; [|constructor]. simpl. now apply sliceOf_new.
Qed.

Lemma grouped_fold (l : list OwnershipTable.OwnershipBreakdown) :
  forall acc done, grouped acc done -> grouped (fold_left OwnershipTable.chartStep l acc) (done ++ l).
Proof.
  induction l as [|x l IH]; intros acc done H; simpl.
  - now rewrite app_nil_r.
  - replace (done ++ x :: l) with ((done ++ [x]) ++ l) by (now rewrite <- app_assoc).
    apply IH. now apply grouped_step.
Qed.

(** X12.  The pie chart has exactly one slice for every category that
    occurs among the stakeholders, and each slice carries the category's
    label and colour and the percentages, shares and invested amounts of the
    stakeholders of that category, added up in the order of the list. *)
Theorem X12_one_slice_per_category (l : list OwnershipTable.OwnershipBreakdown) :
  let slices := OwnershipTable.groupByType l in
  NoDup (map OwnershipTable.cg_type slices) /\
  (forall t, In t (map OwnershipTable.cg_type slices) <-> In t (map OwnershipTable.type l)) /\
  Forall (fun g => g = sliceOf l (OwnershipTable.cg_type g)) slices.
Proof.
  assert (H0 : grouped [] []).
  { split; [constructor|]. split; [intros t; reflexivity|constructor]. }
  exact (@grouped_fold l [] [] H0).
Qed.

(** ** The list of exit valuations *)

Lemma below_finite (a b : num) :
  finite a -> finite b -> (below a b <-> toQ a < toQ b).
Proof.
  intros Ha Hb. unfold below. rewrite (finite_inv Ha), (finite_inv Hb). simpl.
  rewrite negb_true_iff. split.
  - apply Qle_bool_false.
  - intros H. destruct (Qle_bool (toQ b) (toQ a)) eqn:E; [|reflexivity].
    apply Qle_bool_iff in E. lra.
Qed.

Lemma comparator_finite (a b : num) :
  finite a -> finite b -> ((a - b > zero)%js = true <-> toQ b < toQ a).
Proof.
  intros Ha Hb. rewrite (finite_inv Ha), (finite_inv Hb). simpl.
  rewrite negb_true_iff. split.
  - intros H. apply Qle_bool_false in H. lra.
  - intros H. destruct (Qle_bool (toQ a + - toQ b) 0) eqn:E; [|reflexivity].
    apply Qle_bool_iff in E. lra.
Qed.

Lemma sameValueZero_finite (a b : num) :
  finite a -> finite b -> (ExitScenario.sameValueZero a b = false <-> ~ toQ a == toQ b).
Proof.
  intros Ha Hb. rewrite (finite_inv Ha), (finite_inv Hb). simpl. split.
  - intros H E. apply Qeq_bool_iff in E. congruence.
  - intros H. destruct (Qeq_bool (toQ a) (toQ b)) eqn:E; [|reflexivity].
    apply Qeq_bool_iff in E. contradiction.
Qed.

Lemma strictNotEqual_finite (a b : num) :
  finite a -> finite b -> (ExitScenario.strictNotEqual a b = true <-> ~ toQ a == toQ b).
Proof.
  intros Ha Hb. rewrite (finite_inv Ha), (finite_inv Hb). simpl.
  rewrite negb_true_iff. split.
  - intros H E. apply Qeq_bool_iff in E. congruence.
  - intros H. destruct (Qeq_bool (toQ a) (toQ b)) eqn:E; [|reflexivity].
    apply Qeq_bool_iff in E. contradiction.
Qed.

Lemma insertAscending_perm (x : num) (l : list num) :
  Permutation (ExitScenario.insertAscending x l) (x :: l).
Proof.
  induction l as [|y l IH]; simpl; [reflexivity|].
  destruct (x - y > zero)%js; [|reflexivity].
  rewrite IH. apply perm_swap.
Qed.

Lemma insert_into_sorted (l m : list num) :
  Permutation (fold_right ExitScenario.insertAscending m l) (l ++ m).
Proof.
  induction l as [|x l IH]; simpl; [reflexivity|].
  rewrite insertAscending_perm. now constructor.
Qed.

Lemma insertAscending_orderly (x : num) (l : list num) :
  finite x -> orderly l -> Forall (fun y => ~ toQ x == toQ y) l ->
  orderly (ExitScenario.insertAscending x l).
Proof.
  intros Hx (Hfin & Hs) Hd. split.
  { apply (Permutation_Forall (Permutation_sym (insertAscending_perm x l))).
    now constructor. }
  induction l as [|y l IH]; simpl.
  - repeat constructor.
  - inversion Hfin as [|? ? Hy Hfin']; subst.
    inversion Hs as [|? ? Hs' Hall]; subst.
    inversion Hd as [|? ? Hxy Hd']; subst.
    destruct (x - y > zero)%js eqn:E.
    + apply (comparator_finite Hx Hy) in E. constructor; [now apply IH|].
      apply (Permutation_Forall (Permutation_sym (insertAscending_perm x l))).
      constructor; [now apply below_finite|exact Hall].
    + assert (Hlt : toQ x < toQ y).
      { destruct (Qlt_le_dec (toQ x) (toQ y)) as [H|H]; [exact H|].
        destruct (Qlt_le_dec (toQ y) (toQ x)) as [H'|H'].
        - apply (comparator_finite Hx Hy) in H'. congruence.
        - exfalso. apply Hxy. lra. }
      constructor; [exact Hs|]. constructor; [now apply below_finite|].
      rewrite Forall_forall in Hall, Hfin' |- *. intros z Hz.
      apply below_finite; [assumption|now apply Hfin'|].
      pose proof (proj1 (below_finite Hy (Hfin' z Hz)) (Hall z Hz)). lra.
Qed.

Lemma sorted_distinct (y : num) (l : list num) :
  finite y -> Forall finite l -> Forall (below y) l ->
  Forall (fun z => ~ toQ y == toQ z) l.
Proof.
  intros Hy Hfin Hall. rewrite Forall_forall in *. intros z Hz E.
  pose proof (proj1 (below_finite Hy (Hfin z Hz)) (Hall z Hz)). lra.
Qed.

Lemma fold_insert_orderly (l m : list num) :
  orderly l -> orderly m ->
  Forall (fun x => Forall (fun y => ~ toQ x == toQ y) m) l ->
  orderly (fold_right ExitScenario.insertAscending m l).
Proof.
  intros (Hfin & Hs) Hm Hd.
  induction l as [|x l IH]; simpl; [exact Hm|].
  inversion Hfin as [|? ? Hx Hfin']; subst.
  inversion Hs as [|? ? Hs' Hall]; subst.
  inversion Hd as [|? ? Hxm Hd']; subst.
  apply insertAscending_orderly; [exact Hx|now apply IH|].
  apply (Permutation_Forall (Permutation_sym (insert_into_sorted l m))).
  apply Forall_app. split; [|exact Hxm]. now apply sorted_distinct.
Qed.

Lemma includes_false (l : list num) (v : num) :
  finite v -> Forall finite l ->
  ExitScenario.includes l v = false -> Forall (fun y => ~ toQ v == toQ y) l.
Proof.
  intros Hv Hfin H. unfold ExitScenario.includes in H.
  induction Hfin as [|y l Hy _ IH]; [constructor|].
  simpl in H. apply orb_false_iff in H. destruct H as (H1 & H2).
  constructor; [now apply sameValueZero_finite|now apply IH].
Qed.

Lemma filter_orderly (p : num -> bool) (l : list num) :
  orderly l -> orderly (filter p l).
Proof.
  intros (Hfin & Hs). split.
  - rewrite Forall_forall in *. intros x Hx. apply filter_In in Hx. now apply Hfin.
  - clear Hfin. induction Hs as [|x l Hs IH Hall]; simpl; [constructor|].
    destruct (p x); [|exact IH]. constructor; [exact IH|].
    rewrite Forall_forall in *. intros z Hz. apply filter_In in Hz. now apply Hall.
Qed.

Lemma added_orderly (l : list num) (v : num) :
  orderly l -> finite v -> ExitScenario.includes l v = false ->
  orderly (ExitScenario.sortAscending (l ++ [v])).
Proof.
  intros Hl Hv Hinc. unfold ExitScenario.sortAscending. rewrite fold_right_app. simpl.
  apply fold_insert_orderly; [exact Hl| |].
  - split; repeat constructor. exact Hv.
  - destruct Hl as (Hfin & _).
    pose proof (includes_false Hv Hfin Hinc) as Hd.
    rewrite Forall_forall in *. intros x Hx. constructor; [|constructor].
    intros E. apply (Hd x Hx). now symmetry.
Qed.

(** X13.  The list of exit valuations starts out in strictly ascending
    order, and adding a custom valuation that parses to a finite number
    keeps it so: sorted, with no value twice.  A valuation that is already
    in the list is not added, and the field is cleared only when one is. *)
Theorem X13_adding_keeps_the_valuations_in_order (st : ExitScenario.Controls) :
  orderly (ExitScenario.exitValuations st) ->
  finite (parseFloat (ExitScenario.customValuation st)) ->
  orderly (ExitScenario.exitValuations ExitScenario.initialControls) /\
  orderly (ExitScenario.exitValuations (ExitScenario.addCustomValuation st)) /\
  (ExitScenario.includes (ExitScenario.exitValuations st)
     (parseFloat (ExitScenario.customValuation st)) = true ->
   ExitScenario.addCustomValuation st = st).
Proof.
  intros Hl Hv. split; [|split].
  - split.
    + repeat constructor.
    + repeat constructor; reflexivity.
  - unfold ExitScenario.addCustomValuation.
    destruct (nonEmpty _); simpl; [|exact Hl].
    destruct (ExitScenario.includes _ _) eqn:E; simpl; [exact Hl|].
    now apply added_orderly.
  - intros H. unfold ExitScenario.addCustomValuation. rewrite H.
    now rewrite andb_false_r.
Qed.

Lemma X13_adding_keeps_order_witness :
  orderly (ExitScenario.exitValuations ExitScenario.initialControls) /\
  orderly (ExitScenario.exitValuations (ExitScenario.addCustomValuation Scenario.controlsTyped)) /\
  map toQ (ExitScenario.exitValuations (ExitScenario.addCustomValuation Scenario.controlsTyped))
  = [10000000; 25000000; 50000000; 100000000; 500000000].
Proof.
  assert (H0 : orderly (ExitScenario.exitValuations Scenario.controlsTyped))
    by (split; repeat constructor; reflexivity).
  destruct (@X13_adding_keeps_the_valuations_in_order Scenario.controlsTyped H0 eq_refl)
    as (Hinit & Hadd & _).
  split; [exact Hinit|]. split; [exact Hadd|reflexivity].
Defined.

Lemma orderly_unique (l l' : list num) :
  orderly l -> orderly l' -> Permutation l l' -> l = l'.
Proof.
  revert l'. induction l as [|x l IH]; intros l' Hl Hl' Hp.
  - apply Permutation_nil in Hp. now subst.
  - destruct l' as [|x' l'].
    { apply Permutation_sym, Permutation_nil in Hp. discriminate. }
    destruct Hl as (Hfin & Hs). destruct Hl' as (Hfin' & Hs').
    inversion Hfin as [|? ? Hx Hfl]; subst. inversion Hfin' as [|? ? Hx' Hfl']; subst.
    inversion Hs as [|? ? Hsl Hall]; subst. inversion Hs' as [|? ? Hsl' Hall']; subst.
    assert (E : x = x').
    { assert (Hin : In x (x' :: l')) by (apply (Permutation_in _ Hp); now left).
      assert (Hin' : In x' (x :: l))
        by (apply (Permutation_in _ (Permutation_sym Hp)); now left).
      destruct Hin as [E|Hin]; [now symmetry|].
      destruct Hin' as [E|Hin']; [exact E|]. exfalso.
      rewrite Forall_forall in Hall, Hall', Hfl, Hfl'.
      pose proof (proj1 (below_finite Hx' Hx) (Hall' x Hin)).
      pose proof (proj1 (below_finite Hx Hx') (Hall x' Hin')). lra. }
    subst x'. f_equal. apply IH; [now split|now split|].
    now apply Permutation_cons_inv in Hp.
Qed.

Lemma Permutation_filter_num (p : num -> bool) (l l' : list num) :
  Permutation l l' -> Permutation (filter p l) (filter p l').
Proof.
  induction 1 as [| x l l' _ IH | x y l | l l' l'' _ IH1 _ IH2]; simpl.
  - constructor.
  - destruct (p x); [now constructor|exact IH].
  - destruct (p x), (p y); try reflexivity. apply perm_swap.
  - now rewrite IH1.
Qed.

Lemma filter_keeps_all (v : num) (l : list num) :
  finite v -> Forall finite l -> Forall (fun y => ~ toQ v == toQ y) l ->
  filter (fun y => ExitScenario.strictNotEqual y v) l = l.
Proof.
  intros Hv Hfin Hd. induction Hfin as [|y l Hy _ IH]; simpl; [reflexivity|].
  inversion Hd as [|? ? Hvy Hd']; subst.
  assert (ExitScenario.strictNotEqual y v = true) as ->
    by (apply strictNotEqual_finite; try assumption; intros E; apply Hvy; now symmetry).
  now rewrite IH.
Qed.

Lemma strictNotEqual_refl (v : num) : finite v -> ExitScenario.strictNotEqual v v = false.
Proof.
  intros Hv. rewrite (finite_inv Hv). simpl. apply negb_false_iff, Qeq_bool_iff. reflexivity.
Qed.

(** X14.  Removing a valuation keeps the list in strictly ascending order
    and leaves no entry equal to it, and leaves the text field alone. *)
Theorem X14_removing_a_valuation (valuation : num) (st : ExitScenario.Controls) :
  orderly (ExitScenario.exitValuations st) ->
  let st' := ExitScenario.removeValuation valuation st in
  orderly (ExitScenario.exitValuations st') /\
  ExitScenario.includes (ExitScenario.exitValuations st') valuation = false /\
  ExitScenario.customValuation st' = ExitScenario.customValuation st.
Proof.
  intros Hl st'. split; [now apply filter_orderly|]. split; [|reflexivity].
  destruct Hl as (Hfin & _). unfold st'. simpl.
  unfold ExitScenario.includes.
  induction Hfin as [|y l Hy _ IH]; simpl; [reflexivity|].
  destruct y as [q| | |]; try discriminate.
  destruct valuation as [v| | |]; simpl; try exact IH.
  destruct (Qeq_bool q v) eqn:E; simpl; [exact IH|].
  rewrite IH, orb_false_r.
  destruct (Qeq_bool v q) eqn:E'; [|reflexivity].
  apply Qeq_bool_iff in E'. symmetry in E'. apply Qeq_bool_iff in E'. congruence.
Qed.

Lemma X14_removing_witness :
  let st' := ExitScenario.removeValuation (Fin 50000000) ExitScenario.initialControls in
  orderly (ExitScenario.exitValuations st') /\
  ExitScenario.includes (ExitScenario.exitValuations st') (Fin 50000000) = false /\
  ExitScenario.customValuation st' = ExitScenario.customValuation ExitScenario.initialControls.
Proof.
  apply (@X14_removing_a_valuation (Fin 50000000) ExitScenario.initialControls).
  split; repeat constructor; reflexivity.
Defined.

(** X15.  Adding a custom valuation that is finite and not yet in the list,
    then removing it, gives the list back as it was. *)
Theorem X15_add_then_remove_restores_the_list (st : ExitScenario.Controls) :
  orderly (ExitScenario.exitValuations st) ->
  nonEmpty (ExitScenario.customValuation st) = true ->
  finite (parseFloat (ExitScenario.customValuation st)) ->
  ExitScenario.includes (ExitScenario.exitValuations st)
    (parseFloat (ExitScenario.customValuation st)) = false ->
  ExitScenario.exitValuations
    (ExitScenario.removeValuation (parseFloat (ExitScenario.customValuation st))
       (ExitScenario.addCustomValuation st))
  = ExitScenario.exitValuations st.
Proof.
  intros Hl Hne Hv Hinc.
  unfold ExitScenario.addCustomValuation. rewrite Hne, Hinc. simpl.
  set (v := parseFloat (ExitScenario.customValuation st)) in *.
  set (l := ExitScenario.exitValuations st) in *.
  apply orderly_unique; [|exact Hl|].
  - apply filter_orderly. now apply added_orderly.
  - rewrite (Permutation_filter_num _ (insert_into_sorted (l ++ [v]) [])).
    rewrite app_nil_r, filter_app. simpl. rewrite (strictNotEqual_refl Hv), app_nil_r.
    destruct Hl as (Hfin & _).
    rewrite (filter_keeps_all Hv Hfin (includes_false Hv Hfin Hinc)). reflexivity.
Qed.

Lemma X15_add_then_remove_witness :
  ExitScenario.exitValuations
    (ExitScenario.removeValuation (Fin 25000000)
       (ExitScenario.addCustomValuation Scenario.controlsTyped))
  = ExitScenario.defaultExitValuations.
Proof.
  apply (@X15_add_then_remove_restores_the_list Scenario.controlsTyped);
    try reflexivity.
  split; repeat constructor; reflexivity.
Defined.

(** ** The round form *)

Lemma mapi_length {A B : Type} (f : A -> nat -> B) (l : list A) :
  forall k, List.length (PricingRound.mapi f k l) = List.length l.
Proof. induction l as [|x l IH]; intros k; simpl; [reflexivity|]. now rewrite IH. Qed.

Lemma mapi_nth {A B : Type} (f : A -> nat -> B) (l : list A) :
  forall k j, nth_error (PricingRound.mapi f k l) j
              = option_map (fun x => f x (k + j)%nat) (nth_error l j).
Proof.
  induction l as [|x l IH]; intros k j; simpl.
  - now destruct j.
  - destruct j as [|j]; simpl.
    + now rewrite Nat.add_0_r.
    + rewrite IH. now rewrite Nat.add_succ_r.
Qed.

Lemma filteri_past {A : Type} (l : list A) :
  forall k0 k1, (k0 < k1)%nat ->
  PricingRound.filteri (fun (_ : A) i => negb (i =? k0)%nat) k1 l = l.
Proof.
  induction l as [|y l IH]; intros k0 k1 Hlt; simpl; [reflexivity|].
  destruct (Nat.eqb_spec k1 k0); [lia|]. simpl. f_equal. apply IH. lia.
Qed.

Lemma filteri_remove {A : Type} (l : list A) :
  forall k index,
  PricingRound.filteri (fun _ i => negb (i =? k + index)%nat) k l
  = firstn index l ++ skipn (S index) l.
Proof.
  induction l as [|x l IH]; intros k index; simpl.
  - now destruct index.
  - destruct index as [|index]; simpl.
    + rewrite Nat.add_0_r, Nat.eqb_refl. simpl. apply filteri_past. lia.
    + destruct (Nat.eqb_spec k (k + S index)); [lia|]. simpl. f_equal.
      replace (k + S index)%nat with (S k + index)%nat by lia. apply IH.
Qed.

(** X16.  Editing the investor rows of the round form: adding a row and
    removing it again gives the form back; updating row [index] changes that
    row only and keeps the number of rows; removing row [index] drops that
    row and keeps the others in order (nothing happens when there is no such
    row). *)
Theorem X16_editing_investor_rows
    (form : PricingRound.FormData) (index : nat) (field value : string) :
  let rows := PricingRound.newInvestors form in
  PricingRound.removeInvestor (List.length rows) (PricingRound.addInvestor form) = form /\
  List.length (PricingRound.newInvestors (PricingRound.updateInvestor index field value form))
  = List.length rows /\
  (forall j,
     nth_error (PricingRound.newInvestors
                  (PricingRound.updateInvestor index field value form)) j
     = if (j =? index)%nat
       then option_map (PricingRound.setField field value) (nth_error rows j)
       else nth_error rows j) /\
  PricingRound.newInvestors (PricingRound.removeInvestor index form)
  = firstn index rows ++ skipn (S index) rows.
Proof.
  intros rows. split; [|split; [|split]].
  - destruct form as [n p i l]. unfold PricingRound.removeInvestor, PricingRound.addInvestor,
      PricingRound.setInvestors. simpl in *. f_equal.
    rewrite (filteri_remove _ 0 (List.length l)).
    rewrite skipn_all2 by (rewrite length_app; simpl; lia).
    rewrite firstn_app, Nat.sub_diag, firstn_all. simpl. now rewrite !app_nil_r.
  - simpl. apply mapi_length.
  - intros j. simpl. rewrite mapi_nth. simpl. fold rows.
    destruct (j =? index)%nat; destruct (nth_error rows j); reflexivity.
  - simpl. apply (filteri_remove _ 0 index).
Qed.

Lemma ownership_investor_entries (n : nat) (safes : list SafeInvestment)
    (st : OwnershipTable.Loop) (r : PricingRoundData) :
  newInvestors r = [] ->
  List.length (filter (fun x => StakeholderType_eqb (OwnershipTable.type x) investor)
                      (OwnershipTable.cur_stakeholders st)) = n ->
  List.length (filter (fun x => StakeholderType_eqb (OwnershipTable.type x) investor)
                      (OwnershipTable.cur_stakeholders (OwnershipTable.processRound safes st r)))
  = n.
Proof.
  intros Hr Hn. unfold OwnershipTable.processRound. rewrite Hr.
  assert (H : forall l acc stl,
             List.length (filter (fun x => StakeholderType_eqb (OwnershipTable.type x) investor)
                                 (snd (fold_left (OwnershipTable.convertSafe r
                                                    (OwnershipTable.cur_totalShares st))
                                                 l (acc, stl))))
             = List.length (filter (fun x => StakeholderType_eqb (OwnershipTable.type x) investor)
                                   stl)).
  { induction l as [|s l IH]; intros acc stl; simpl; [reflexivity|].
    destruct (converted s); simpl; [|apply IH].
    destruct (find _ stl); rewrite IH; [reflexivity|].
    rewrite filter_app. simpl. now rewrite app_nil_r. }
  specialize (H safes zero (OwnershipTable.cur_stakeholders st)).
  destruct (fold_left _ safes _) as [safeShares stakeholders]. simpl in H |- *.
  now rewrite app_nil_r, H.
Qed.

(** X17.  Investor rows with a blank name or a blank amount are dropped
    when the round form is submitted.  A round submitted with such rows only
    gives nobody an investor entry, in either view, while its investment
    still issues new shares into the total. *)
Theorem X17_round_without_investor_rows
    (form : PricingRound.FormData) (c : Company) (safes : list SafeInvestment) (id : string) :
  Forall (fun row => nonEmpty (PricingRound.if_name row)
                     && nonEmpty (PricingRound.if_investment row) = false)
         (PricingRound.newInvestors form) ->
  let r := roundOf id (PricingRound.handleSubmit form) in
  let os := ExitScenario.runRounds c safes [r] in
  newInvestors r = [] /\
  filter (fun x => StakeholderType_eqb (ExitScenario.type x) investor)
         (ExitScenario.stakeholders os) = [] /\
  filter (fun x => StakeholderType_eqb (OwnershipTable.type x) investor)
         (OwnershipTable.cur_stakeholders (OwnershipTable.runRounds c safes [r])) = [] /\
  ExitScenario.totalShares os
  = (Index.totalShares c
     + (sumOf (convertedShares r (Index.totalShares c)) safes
        + parseFloat (PricingRound.investment form)
          / pricePerShare safes r (Index.totalShares c)))%js.
Proof.
  intros Hrows r os.
  assert (Hr : newInvestors r = []).
  { unfold r, roundOf, PricingRound.handleSubmit. simpl.
    induction Hrows as [|row rows Hrow _ IH]; simpl; [reflexivity|].
    now rewrite Hrow. }
  split; [exact Hr|]. split; [|split; [|reflexivity]].
  - unfold os, ExitScenario.runRounds. cbn [fold_left].
    unfold ExitScenario.processRound. cbn [ExitScenario.stakeholders].
    rewrite Hr. cbn [map]. rewrite app_nil_r, filter_app.
    cbn [ExitScenario.init ExitScenario.stakeholders filter ExitScenario.type
         StakeholderType_eqb app].
    generalize (ExitScenario.totalShares (ExitScenario.init c)).
    intros t. induction safes as [|s l IH]; simpl; [reflexivity|exact IH].
  - apply length_zero_iff_nil. unfold OwnershipTable.runRounds. cbn [fold_left].
    now apply ownership_investor_entries.
Qed.

Lemma X17_round_without_investor_rows_witness :
  let r := roundOf "r1" (PricingRound.handleSubmit Scenario.blankRowForm) in
  let os := ExitScenario.runRounds Scenario.acme [Scenario.note] [r] in
  newInvestors r = [] /\
  map ExitScenario.name (ExitScenario.stakeholders os) = ["Founders"; "Angel"] /\
  approx2 (ExitScenario.totalShares os) 13080645.16.
Proof.
  destruct (@X17_round_without_investor_rows
              Scenario.blankRowForm Scenario.acme [Scenario.note] "r1")
    as (Hr & _).
  { repeat constructor. }
  split; [exact Hr|]. split; [reflexivity|]. vm_compute. discriminate.
Defined.

(** ** The preview of the round form *)

(** X18.  On valid inputs the preview of the round form shows, for the
    first round, what the exit view computes once the round is added: the
    same price per share, new shares, SAFE shares, total of shares and
    founders' percentage (in exact arithmetic). *)
Theorem X18_preview_matches_the_first_round
    (form : PricingRound.FormData) (c : Company) (safes : list SafeInvestment) (id : string) :
  let r := roundOf id (PricingRound.handleSubmit form) in
  let shares0 := Index.totalShares c in
  let os := ExitScenario.runRounds c safes [r] in
  nonEmpty (PricingRound.preMoneyValuation form) = true ->
  nonEmpty (PricingRound.investment form) = true ->
  validCompany c -> Forall validSafe safes -> validRound safes r ->
  exists calc,
    PricingRound.calculations form c safes = Some calc /\
    PricingRound.preMoneyPricePerShare calc =~= pricePerShare safes r shares0 /\
    PricingRound.newShares calc =~= newShares safes r shares0 /\
    PricingRound.safeShares calc = sumOf (convertedShares r shares0) safes /\
    PricingRound.totalSharesAfter calc =~= ExitScenario.totalShares os /\
    PricingRound.founderOwnership calc
    =~= (foundersShares c / ExitScenario.totalShares os * hundred)%js.
Proof.
  intros r shares0 os Hne1 Hne2 Hc Hs Hr.
  destruct Hc as (Hct & Hcf). apply positive_inv in Hct. destruct Hct as (t & Ht & Htpos).
  destruct (validRound_inv Hs Hr Htpos) as (p & e & Hp & Hppos & He & Hepos & Hpps & Hq).
  destruct (roundSafeInvestment_fin Hs) as (Hsigma & _).
  destruct (safeEntries_sum Hs r Hp Hppos Htpos) as (_ & Hssum & Hsnn).
  pose proof Hr as (_ & Hinv & _).
  apply positive_inv in Hinv. destruct Hinv as (I & HI & HIpos).
  apply finite_inv in Hcf.
  assert (Ht0 : ~ t == 0) by now apply Qpos_neq.
  assert (Hq0 : ~ e / t == 0) by now apply Qpos_neq.
  assert (HN : 0 < I / (e / t)) by now apply Qdiv_pos.
  set (S := Qsum (fun x => toQ (ExitScenario.shares x))
                 (map (ExitScenario.safeEntry r (Fin t)) safes) 0) in *.
  assert (Htot : ExitScenario.totalShares os = Fin (t + (S + I / (e / t)))).
  { unfold os, ExitScenario.runRounds. cbn [fold_left].
    unfold ExitScenario.processRound. cbn [ExitScenario.totalShares ExitScenario.init].
    rewrite Ht, Hssum, Hpps, HI, (div_fin _ Hq0). reflexivity. }
  assert (Htotpos : ~ t + (S + I / (e / t)) == 0) by (apply Qpos_neq; lra).
  unfold PricingRound.calculations. rewrite Hne1, Hne2. cbn [negb orb].
  change (parseFloat (PricingRound.preMoneyValuation form)) with (preMoneyValuation r).
  change (parseFloat (PricingRound.investment form)) with (Index.investment r).
  fold shares0. unfold shares0 in *.
  destruct safes as [|s safes'].
  - (* no note: the preview prices the round at the pre-money valuation itself *)
    assert (HS : S == 0) by reflexivity.
    assert (Hep : e == p).
    { unfold effectivePreMoney in He. rewrite Hp in He.
      unfold roundSafeInvestment, sumOf in He. cbn [fold_left jsub jadd jneg zero] in He.
      injection He as <-. ring. }
    assert (Hpt : ~ p / t == 0) by (apply Qpos_neq; now apply Qdiv_pos).
    eexists. split; [reflexivity|]. cbn [PricingRound.preMoneyPricePerShare
      PricingRound.newShares PricingRound.safeShares PricingRound.totalSharesAfter
      PricingRound.founderOwnership].
    rewrite Htot. unfold newShares. rewrite Ht, Hpps, Hp, HI, Hcf.
    rewrite !(div_fin _ Ht0), !(div_fin _ Hq0), !(div_fin _ Hpt).
    assert (HNN : I / (p / t) == I / (e / t)) by (rewrite Hep; reflexivity).
    assert (Htotpos' : ~ t + 0 + I / (p / t) == 0) by (rewrite HNN; apply Qpos_neq; lra).
    cbn [jadd zero]. rewrite (div_fin _ Htotpos), (div_fin _ Htotpos').
    cbn [jmul jeq hundred].
    assert (Hsame : t + 0 + I / (p / t) == t + (S + I / (e / t)))
      by (rewrite HNN, HS; ring).
    repeat split.
    + now rewrite Hep.
    + exact HNN.
    + exact Hsame.
    + now rewrite Hsame.
  - set (safes := s :: safes') in *.
    eexists. split; [reflexivity|]. cbn [PricingRound.preMoneyPricePerShare
      PricingRound.newShares PricingRound.safeShares PricingRound.totalSharesAfter
      PricingRound.founderOwnership].
    repeat match goal with
           | |- context [fold_left ?f safes zero] =>
               progress change (fold_left f safes zero)
                 with (sumOf (convertedShares r (Index.totalShares c)) safes)
           end.
    change (preMoneyValuation r - sumOf Index.amount safes)%js
      with (effectivePreMoney safes r).
    change (effectivePreMoney safes r / Index.totalShares c)%js
      with (pricePerShare safes r (Index.totalShares c)).
    rewrite Htot. unfold newShares. rewrite Ht, Hssum, Hpps, HI, Hcf, (div_fin _ Hq0).
    cbn [jadd].

    assert (Hsame : t + S + I / (e / t) == t + (S + I / (e / t))) by ring.
    assert (Htotpos' : ~ t + S + I / (e / t) == 0) by (rewrite Hsame; exact Htotpos).
    rewrite (div_fin _ Htotpos), (div_fin _ Htotpos'). cbn [jmul jeq hundred].
    repeat split; try reflexivity.
    + exact Hsame.
    + now rewrite Hsame.
Qed.

Lemma X18_preview_matches_witness :
  let r := roundOf "r1" (PricingRound.handleSubmit Scenario.roundForm) in
  let os := ExitScenario.runRounds Scenario.acme [Scenario.note] [r] in
  exists calc,
    PricingRound.calculations Scenario.roundForm Scenario.acme [Scenario.note] = Some calc /\
    PricingRound.preMoneyPricePerShare calc
    =~= pricePerShare [Scenario.note] r (Index.totalShares Scenario.acme) /\
    PricingRound.newShares calc =~= newShares [Scenario.note] r (Index.totalShares Scenario.acme) /\
    PricingRound.safeShares calc
    = sumOf (convertedShares r (Index.totalShares Scenario.acme)) [Scenario.note] /\
    PricingRound.totalSharesAfter calc =~= ExitScenario.totalShares os /\
    PricingRound.founderOwnership calc
    =~= (foundersShares Scenario.acme / ExitScenario.totalShares os * hundred)%js.
Proof.
  apply (@X18_preview_matches_the_first_round
           Scenario.roundForm Scenario.acme [Scenario.note] "r1");
    try reflexivity; valid_input.
Defined.

(** ** When the two views agree *)

(** X19.  With no SAFE note, or with at most one round and every note
    flagged converted under pairwise distinct names other than "Founders",
    the table of the ownership view holds the entries of the exit view (the
    same names, shares, invested amounts and categories, in the order of the
    percentages) and the same total. *)
Theorem X19_views_agree_without_repeated_conversion
    (c : Company) (safes : list SafeInvestment) (rounds : list PricingRoundData) :
  Forall (fun s => converted s = true) safes ->
  NoDup (map investorName safes) ->
  ~ In "Founders" (map investorName safes) ->
  safes = [] \/ (List.length rounds <= 1)%nat ->
  let data := OwnershipTable.ownershipData c safes rounds in
  let os := ExitScenario.runRounds c safes rounds in
  Permutation (map toExit (OwnershipTable.stakeholders data)) (ExitScenario.stakeholders os) /\
  OwnershipTable.totalShares data = ExitScenario.totalShares os.
Proof.
  intros Hc Hnd Hf Hone data os.
  pose proof (@agree_run c safes rounds Hc Hnd Hf Hone) as Hagree.
  split.
  - unfold data. rewrite snapshot_perm. fold os in Hagree. rewrite <- Hagree. reflexivity.
  - fold os in Hagree. rewrite <- Hagree. reflexivity.
Qed.

Lemma X19_views_agree_witness :
  let data := OwnershipTable.ownershipData Scenario.acme [Scenario.note] [Scenario.round] in
  let os := ExitScenario.runRounds Scenario.acme [Scenario.note] [Scenario.round] in
  Permutation (map toExit (OwnershipTable.stakeholders data)) (ExitScenario.stakeholders os) /\
  OwnershipTable.totalShares data = ExitScenario.totalShares os.
Proof.
  apply (@X19_views_agree_without_repeated_conversion
           Scenario.acme [Scenario.note] [Scenario.round]);
    [valid_input .. | right; simpl; lia].
Defined.

(** ** Return on investment *)

(** X20.  For a stakeholder with a positive invested amount and a finite
    payout, the ROI is the multiple less one, times 100, and the ROI is
    positive exactly when the multiple is above one, that is when the payout
    exceeds the investment. *)
Theorem X20_roi_follows_the_multiple
    (pricePerShare : num) (s : ExitScenario.Stakeholder) (i v : Q) :
  ExitScenario.investment s = Fin i -> 0 < i ->
  (ExitScenario.shares s * pricePerShare)%js = Fin v ->
  let ip := ExitScenario.investorPayout pricePerShare s in
  ExitScenario.roi ip =~= ((ExitScenario.multiple ip - one) * hundred)%js /\
  (ExitScenario.roi ip > zero)%js = (ExitScenario.multiple ip > one)%js /\
  (ExitScenario.roi ip > zero)%js = (ExitScenario.payout ip > ExitScenario.investment s)%js.
Proof.
  intros Hi Hipos Hv ip. unfold ip, ExitScenario.investorPayout.
  cbn [ExitScenario.roi ExitScenario.multiple ExitScenario.payout].
  rewrite Hv, Hi.
  assert (Hi0 : ~ i == 0) by now apply Qpos_neq.
  assert (Hgt : (Fin i > zero)%js = true).
  { simpl. apply negb_true_iff. destruct (Qle_bool i 0) eqn:E; [|reflexivity].
    apply Qle_bool_iff in E. lra. }
  rewrite Hgt. cbn [jsub jneg jadd one zero hundred].
  rewrite !(div_fin _ Hi0). cbn [jsub jneg jadd jmul jgt jeq one zero hundred].
  assert (Hinv : 0 < / i) by now apply Qinv_lt_0_compat.
  assert (Hm : v / i == v * / i) by reflexivity.
  split; [field; exact Hi0|].
  assert (Hkey : (v + - i) / i * 100 == (v * / i + - 1) * 100) by (field; exact Hi0).
  assert (Hsign : (v * / i + - 1) * i == v + - i) by (field; exact Hi0).
  split; f_equal.
  - destruct (Qle_bool ((v + - i) / i * 100) 0) eqn:E1;
      destruct (Qle_bool (v / i) 1) eqn:E2; try reflexivity; exfalso.
    + apply Qle_bool_iff in E1. apply Qle_bool_false in E2. rewrite Hkey in E1. lra.
    + apply Qle_bool_iff in E2. apply Qle_bool_false in E1. rewrite Hkey in E1. lra.
  - destruct (Qle_bool ((v + - i) / i * 100) 0) eqn:E1;
      destruct (Qle_bool v i) eqn:E2; try reflexivity; exfalso.
    + apply Qle_bool_iff in E1. apply Qle_bool_false in E2. rewrite Hkey in E1.
      assert (0 < (v * / i + - 1) * i) by (rewrite Hsign; lra).
      assert (v * / i + - 1 <= 0) by lra. nra.
    + apply Qle_bool_iff in E2. apply Qle_bool_false in E1. rewrite Hkey in E1.
      assert ((v * / i + - 1) * i <= 0) by (rewrite Hsign; lra).
      assert (0 < v * / i + - 1) by lra. nra.
Qed.

Lemma X20_roi_follows_the_multiple_witness :
  let ip := ExitScenario.investorPayout (Fin 2) Scenario.angelEntry in
  ExitScenario.roi ip =~= ((ExitScenario.multiple ip - one) * hundred)%js /\
  (ExitScenario.roi ip > zero)%js = (ExitScenario.multiple ip > one)%js /\
  (ExitScenario.roi ip > zero)%js
  = (ExitScenario.payout ip > ExitScenario.investment Scenario.angelEntry)%js.
Proof.
  apply (@X20_roi_follows_the_multiple (Fin 2) Scenario.angelEntry 250000 (500000 * 2));
    reflexivity.
Defined.

(** ** The percentages of the table *)

Lemma Qsum_ownership (t : Q) (l : list OwnershipTable.OwnershipBreakdown) :
  ~ t == 0 ->
  Forall (fun e => finite (OwnershipTable.shares e)) l ->
  Forall (fun e => finite (OwnershipTable.ownership e))
         (map (OwnershipTable.setOwnership (Fin t)) l) /\
  Qsum (fun e => toQ (OwnershipTable.ownership e))
       (map (OwnershipTable.setOwnership (Fin t)) l) 0
  == Qsum (fun e => toQ (OwnershipTable.shares e)) l 0 / t * 100.
Proof.
  intros Ht Hfin.
  assert (Hall : Forall (fun e =>
                    OwnershipTable.ownership (OwnershipTable.setOwnership (Fin t) e)
                    = Fin (toQ (OwnershipTable.shares e) / t * 100)) l).
  { eapply Forall_impl; [|exact Hfin]. intros e He. simpl.
    rewrite (finite_inv He), (div_fin _ Ht). reflexivity. }
  split.
  - apply Forall_map. eapply Forall_impl; [|exact Hall]. intros e He. now rewrite He.
  - rewrite Qsum_map, <- Qsum_div, <- Qsum_mult. apply Qsum_ext.
    eapply Forall_impl; [|exact Hall]. intros e He. rewrite He. reflexivity.
Qed.

(** X21.  On valid inputs in which every round's [investment] is the sum of
    its investors' amounts, with no SAFE note or at most one round and every
    note flagged converted under distinct names other than "Founders", the
    percentages of the table and the percentage of the company's unallocated
    shares add up to 100. *)
Theorem X21_percentages_add_up_to_100
    (c : Company) (safes : list SafeInvestment) (rounds : list PricingRoundData) :
  validCompany c -> Forall validSafe safes ->
  Forall (validRound safes) rounds -> Forall investmentsAddUp rounds ->
  Forall (fun s => converted s = true) safes ->
  NoDup (map investorName safes) ->
  ~ In "Founders" (map investorName safes) ->
  safes = [] \/ (List.length rounds <= 1)%nat ->
  let data := OwnershipTable.ownershipData c safes rounds in
  (sumOf OwnershipTable.ownership (OwnershipTable.stakeholders data)
   + unallocated c / OwnershipTable.totalShares data * hundred)%js =~= hundred.
Proof.
  intros Hc Hs Hr Ha Hconv Hnd Hf Hone data.
  pose proof (exit_shares_add_up Hc Hs Hr Ha) as Hb.
  rewrite <- (@agree_run c safes rounds Hconv Hnd Hf Hone) in Hb.
  destruct Hb as (t & Ht & Htpos & Hfin & Hsum). simpl in Ht, Hfin, Hsum.
  rewrite Forall_map in Hfin. rewrite Qsum_map in Hsum.
  assert (Ht0 : ~ t == 0) by now apply Qpos_neq.
  destruct (Qsum_ownership Ht0 Hfin) as (Hofin & Hosum).
  change (OwnershipTable.totalShares data)
    with (OwnershipTable.cur_totalShares (OwnershipTable.runRounds c safes rounds)).
  change (OwnershipTable.stakeholders data)
    with (OwnershipTable.sort
            (map (OwnershipTable.setOwnership
                    (OwnershipTable.cur_totalShares (OwnershipTable.runRounds c safes rounds)))
                 (OwnershipTable.cur_stakeholders (OwnershipTable.runRounds c safes rounds)))).
  rewrite Ht.
  rewrite sumOf_fin
    by (apply (Permutation_Forall (Permutation_sym (sort_perm _))); exact Hofin).
  rewrite (unallocated_fin Hc), (div_fin _ Ht0). cbn [jmul jadd jeq hundred].
  rewrite (Qsum_perm _ (sort_perm _)), Hosum.
  simpl in Hsum.
  transitivity ((Qsum (fun e => toQ (OwnershipTable.shares e))
                      (OwnershipTable.cur_stakeholders (OwnershipTable.runRounds c safes rounds)) 0
                 + toQ (unallocated c)) / t * 100).
  - field. exact Ht0.
  - rewrite Hsum. field. exact Ht0.
Qed.

Lemma X21_percentages_add_up_witness :
  let data := OwnershipTable.ownershipData Scenario.acme [Scenario.note] [Scenario.round] in
  (sumOf OwnershipTable.ownership (OwnershipTable.stakeholders data)
   + unallocated Scenario.acme / OwnershipTable.totalShares data * hundred)%js =~= hundred.
Proof.
  apply (@X21_percentages_add_up_to_100 Scenario.acme [Scenario.note] [Scenario.round]);
    [valid_input .. | right; simpl; lia].
Defined.

(** ** Notes the table does not list *)

Lemma founders_entries_step (safes : list SafeInvestment) (st : OwnershipTable.Loop)
    (r : PricingRoundData) :
  filter (named "Founders") (OwnershipTable.cur_stakeholders st) <> [] ->
  Forall (fun e => OwnershipTable.type e <> safe)
         (filter (named "Founders") (OwnershipTable.cur_stakeholders st)) ->
  filter (named "Founders")
         (OwnershipTable.cur_stakeholders (OwnershipTable.processRound safes st r)) <> [] /\
  Forall (fun e => OwnershipTable.type e <> safe)
         (filter (named "Founders")
                 (OwnershipTable.cur_stakeholders (OwnershipTable.processRound safes st r))).
Proof.
  intros Hne Hall. unfold OwnershipTable.processRound.
  pose proof (convert_keeps "Founders" r (OwnershipTable.cur_totalShares st) safes zero _ Hne)
    as H.
  destruct (fold_left _ safes _) as [safeShares stakeholders]. simpl in H |- *.
  rewrite filter_app, H. split.
  - destruct (filter (named "Founders") (OwnershipTable.cur_stakeholders st));
      [congruence|discriminate].
  - apply Forall_app. split; [exact Hall|].
    apply Forall_forall. intros e He. apply filter_In in He. destruct He as (He & _).
    apply in_map_iff in He. destruct He as (i & <- & _). simpl. discriminate.
Qed.

(** X22.  A note whose investor is called "Founders" never gets an entry of
    its own in the ownership view: whatever the notes and rounds, no entry
    under that name is a SAFE entry. *)
Theorem X22_note_called_founders_gets_no_entry
    (c : Company) (safes : list SafeInvestment) (rounds : list PricingRoundData) :
  Forall (fun e => OwnershipTable.type e <> safe)
         (filter (named "Founders")
                 (OwnershipTable.stakeholders (OwnershipTable.ownershipData c safes rounds))).
Proof.
  assert (H : filter (named "Founders")
                (OwnershipTable.cur_stakeholders (OwnershipTable.runRounds c safes rounds)) <> [] /\
              Forall (fun e => OwnershipTable.type e <> safe)
                (filter (named "Founders")
                   (OwnershipTable.cur_stakeholders (OwnershipTable.runRounds c safes rounds)))).
  { unfold OwnershipTable.runRounds.
    assert (H0 : filter (named "Founders")
                   (OwnershipTable.cur_stakeholders (OwnershipTable.init c)) <> [] /\
                 Forall (fun e => OwnershipTable.type e <> safe)
                   (filter (named "Founders")
                      (OwnershipTable.cur_stakeholders (OwnershipTable.init c))))
      by (split; [discriminate|repeat constructor; discriminate]).
    revert H0. generalize (OwnershipTable.init c).
    induction rounds as [|r rounds IH]; intros st (Hne & Hall); simpl; [now split|].
    apply IH. now apply founders_entries_step. }
  destruct H as (_ & H).
  change (OwnershipTable.stakeholders (OwnershipTable.ownershipData c safes rounds))
    with (OwnershipTable.sort
            (map (OwnershipTable.setOwnership
                    (OwnershipTable.cur_totalShares (OwnershipTable.runRounds c safes rounds)))
                 (OwnershipTable.cur_stakeholders (OwnershipTable.runRounds c safes rounds)))).
  apply (Permutation_Forall
           (Permutation_sym (Permutation_filter_named "Founders" (sort_perm _)))).
  rewrite Forall_forall in H |- *. intros e He.
  apply filter_In in He. destruct He as (He & Hn).
  apply in_map_iff in He. destruct He as (e0 & <- & He0).
  apply (H e0). apply filter_In. split; [exact He0|exact Hn].
Qed.

(** X23.  A round processed while no note is flagged converted issues no
    SAFE shares in the ownership view, yet the notes' amounts still lower
    the price of the round: its investors are priced at
    [(preMoney - total of all notes) / totalShares]. *)
Theorem X23_unflagged_notes_still_lower_the_price
    (safes : list SafeInvestment) (st : OwnershipTable.Loop) (r : PricingRoundData) :
  Forall (fun s => converted s = false) safes ->
  let shares0 := OwnershipTable.cur_totalShares st in
  let price := ((preMoneyValuation r - sumOf amount safes) / shares0)%js in
  OwnershipTable.cur_stakeholders (OwnershipTable.processRound safes st r)
  = OwnershipTable.cur_stakeholders st
    ++ map (OwnershipTable.investorEntry price) (newInvestors r) /\
  OwnershipTable.cur_totalShares (OwnershipTable.processRound safes st r)
  = (shares0 + (zero + Index.investment r / price))%js.
Proof.
  intros Hu shares0 price.
  assert (H : forall acc stl,
             fold_left (OwnershipTable.convertSafe r shares0) safes (acc, stl) = (acc, stl)).
  { induction Hu as [|s l Hs _ IH]; intros acc stl; simpl; [reflexivity|].
    rewrite Hs. simpl. apply IH. }
  unfold OwnershipTable.processRound. fold shares0. rewrite H. split; reflexivity.
Qed.

Lemma X23_unflagged_notes_witness :
  let st := OwnershipTable.init Scenario.acme in
  let price := ((preMoneyValuation Scenario.round - sumOf amount [Scenario.lateNote])
                / OwnershipTable.cur_totalShares st)%js in
  OwnershipTable.cur_stakeholders (OwnershipTable.processRound [Scenario.lateNote] st Scenario.round)
  = OwnershipTable.cur_stakeholders st
    ++ map (OwnershipTable.investorEntry price) (newInvestors Scenario.round) /\
  OwnershipTable.cur_totalShares (OwnershipTable.processRound [Scenario.lateNote] st Scenario.round)
  = (OwnershipTable.cur_totalShares st + (zero + Index.investment Scenario.round / price))%js.
Proof.
  apply (@X23_unflagged_notes_still_lower_the_price
           [Scenario.lateNote] (OwnershipTable.init Scenario.acme) Scenario.round).
  repeat constructor.
Defined.

(** X24.  Right after a round is added on the page every note is flagged
    converted, so the ownership view and the exit view of the page show the
    same total of shares. *)
Theorem X24_totals_agree_right_after_a_round
    (events : list Event) (id : string) (roundData : RoundData) (c : Company) :
  let st := run (events ++ [AddRound id roundData]) in
  Forall (fun s => converted s = true) (safeRounds st) /\
  OwnershipTable.totalShares
    (OwnershipTable.ownershipData c (safeRounds st) (pricingRounds st))
  = ExitScenario.totalShares (ExitScenario.runRounds c (safeRounds st) (pricingRounds st)).
Proof.
  intros st.
  assert (H : Forall (fun s => converted s = true) (safeRounds st)).
  { unfold st. rewrite run_app. simpl.
    apply Forall_map, Forall_forall. intros s _. reflexivity. }
  split; [exact H|].
  unfold OwnershipTable.ownershipData, OwnershipTable.runRounds, ExitScenario.runRounds.
  simpl. now apply totals_agree_fold.
Qed.
